(** * Huffman compressor (Compresor_Huffman.py): model and verification

    The Python program is embedded shallowly:
    - a Python [str] of bits is a [list ascii] over the characters '0' and '1';
    - the input text is a list of symbols (one-character strings), for any
      symbol type with decidable equality;
    - a [dict] is an insertion-ordered association list ([Counter] and
      [self.codes]); the order matters because it fixes the initial layout
      of the priority queue;
    - exceptions are values of [result]; a method of [HuffmanCompressor] takes
      the object's fields and returns the fields after the call together with
      the outcome (the fields are kept when the call raises);
    - [heapq] follows CPython's Lib/heapq.py on Python lists;
    - reading and writing the files (and [pickle]) is left out: [compress]
      starts from the text read and ends with the two artifacts written,
      [decompress] starts from the two artifacts read and ends with the text
      returned; memory is not modelled;
    - the interpreter's recursion limit is modelled where the depth of the
      recursion is set by an artifact read from outside: [deserialize_frames]
      and [decompress_frames] are [deserialize_tree] and [decompress] with a
      given number of frames left. Without a limit they are
      [deserialize_tree] and [decompress], which the parts about trees built
      from a text use. *)

From Stdlib Require Import Ascii ZifyNat.
From stdpp Require Import base decidable option list numbers strings.

Local Open Scope nat_scope.

(** [lia] with division and remainder by a constant. *)
Ltac Zify.zify_post_hook ::= Z.to_euclidean_division_equations.
#[local] Set Warnings "-clear-no-such-hyp".

(** ** Exceptions and results *)

(** [OutOfFuel] is not a Python exception: it marks the exhaustion of the
    bound a loop of the model is run with. The theorems below show that no
    such bound is ever reached. [RecursionError] is the interpreter's: it is
    raised by a call made when no frame is left below the recursion limit. *)
Inductive exception :=
  | ValueError | KeyError | IndexError | AttributeError | TypeError | IOError
  | RecursionError
  | OutOfFuel.

Inductive result (A : Type) :=
  | Ok (a : A)
  | Raise (e : exception).
Arguments Ok {A} a.
Arguments Raise {A} e.

#[global] Instance result_ret : MRet result := λ A, @Ok A.
#[global] Instance result_bind : MBind result := λ A B f m,
  match m with Ok a => f a | Raise e => Raise e end.

#[global] Instance exception_eq_dec : EqDecision exception.
Proof. solve_decision. Defined.

(** ** Python lists, strings and dicts *)

Section PyList.
Context {A : Type}.

(** [l[i]] for a non-negative index. *)
Definition getitem (l : list A) (i : nat) : result A :=
  match l !! i with Some x => Ok x | None => Raise IndexError end.

(** [l[i] = x] for a non-negative index. *)
Definition setitem (l : list A) (i : nat) (x : A) : result (list A) :=
  if decide (i < length l) then Ok (<[i:=x]> l) else Raise IndexError.

(** [l.pop()]: the last element and the list without it. *)
Definition pop (l : list A) : result (A * list A) :=
  match last l with
  | Some x => Ok (x, removelast l)
  | None => Raise IndexError
  end.

(** [l[i:j]] for non-negative bounds. *)
Definition slice (l : list A) (i j : nat) : list A := take (j - i) (drop i l).

End PyList.

(** [range(0, stop, step)] for a positive step. *)
Definition range_step (stop step : nat) : list nat :=
  (λ k, k * step) <$> seq 0 ((stop + step - 1) / step).

Section Dict.
Context {K V : Type} `{!EqDecision K}.

Definition dict := list (K * V).

(** [d.get(k)] *)
Fixpoint dict_get (k : K) (d : dict) : option V :=
  match d with
  | [] => None
  | (k', v) :: d' => if decide (k = k') then Some v else dict_get k d'
  end.

(** [d[k] = v]: an existing key keeps its place, a new one goes last. *)
Fixpoint dict_set (k : K) (v : V) (d : dict) : dict :=
  match d with
  | [] => [(k, v)]
  | (k', v') :: d' =>
      if decide (k = k') then (k, v) :: d' else (k', v') :: dict_set k v d'
  end.

(** [d[k]] *)
Definition dict_getitem (k : K) (d : dict) : result V :=
  match dict_get k d with Some v => Ok v | None => Raise KeyError end.

Definition keys (d : dict) : list K := d.*1.

End Dict.
Arguments dict : clear implicits.

(** [collections.Counter(text)]: one pass, [c[x] = c.get(x, 0) + 1]. *)
Definition Counter {K} `{!EqDecision K} (text : list K) : dict K nat :=
  foldl (λ c x, dict_set x (default 0 (dict_get x c) + 1) c) [] text.

(** ** heapq (CPython's Lib/heapq.py), for elements compared with [lt] *)

Module heapq.
Section Heapq.
Context {A : Type} (lt : A → A → bool).

Fixpoint _siftdown_loop (fuel : nat) (heap : list A) (newitem : A)
    (startpos pos : nat) : result (list A * nat) :=
  if decide (startpos < pos) then
    match fuel with
    | 0 => Raise OutOfFuel
    | S fuel =>
        let parentpos := (pos - 1) / 2 in
        parent ← getitem heap parentpos;
        if lt newitem parent then
          heap ← setitem heap pos parent;
          _siftdown_loop fuel heap newitem startpos parentpos
        else Ok (heap, pos)
    end
  else Ok (heap, pos).

Definition _siftdown (heap : list A) (startpos pos : nat) : result (list A) :=
  newitem ← getitem heap pos;
  '(heap, pos) ← _siftdown_loop pos heap newitem startpos pos;
  setitem heap pos newitem.

Fixpoint _siftup_loop (fuel : nat) (heap : list A) (endpos pos : nat)
    : result (list A * nat) :=
  let childpos := 2 * pos + 1 in
  if decide (childpos < endpos) then
    match fuel with
    | 0 => Raise OutOfFuel
    | S fuel =>
        let rightpos := childpos + 1 in
        childpos ←
          (if decide (rightpos < endpos) then
             c ← getitem heap childpos;
             r ← getitem heap rightpos;
             Ok (if negb (lt c r) then rightpos else childpos)
           else Ok childpos);
        child ← getitem heap childpos;
        heap ← setitem heap pos child;
        _siftup_loop fuel heap endpos childpos
    end
  else Ok (heap, pos).

Definition _siftup (heap : list A) (pos : nat) : result (list A) :=
  let endpos := length heap in
  let startpos := pos in
  newitem ← getitem heap pos;
  '(heap, pos) ← _siftup_loop endpos heap endpos pos;
  heap ← setitem heap pos newitem;
  _siftdown heap startpos pos.

Definition heappush (heap : list A) (item : A) : result (list A) :=
  let heap := heap ++ [item] in
  _siftdown heap 0 (length heap - 1).

Definition heappop (heap : list A) : result (A * list A) :=
  '(lastelt, heap) ← pop heap;
  match heap with
  | [] => Ok (lastelt, heap)
  | _ :: _ =>
      returnitem ← getitem heap 0;
      heap ← setitem heap 0 lastelt;
      heap ← _siftup heap 0;
      Ok (returnitem, heap)
  end.

Fixpoint _heapify_loop (idxs : list nat) (x : list A) : result (list A) :=
  match idxs with
  | [] => Ok x
  | i :: idxs => x ← _siftup x i; _heapify_loop idxs x
  end.

Definition heapify (x : list A) : result (list A) :=
  let n := length x in
  _heapify_loop (reverse (seq 0 (n / 2))) x.

End Heapq.
End heapq.

(** ** Bit strings and bytes *)

(** A Python [str]; the codes and the bit stream hold '0' and '1' only. *)
Definition pystr := list ascii.

Definition zero : ascii := "0"%char.
Definition one : ascii := "1"%char.

(** [int(s, 2)] on a string of binary digits (no sign, prefix or
    underscore, which the program never builds); the empty string and any
    other character raise. *)
Fixpoint int2_digits (acc : N) (s : pystr) : result N :=
  match s with
  | [] => Ok acc
  | c :: s =>
      if decide (c = zero) then int2_digits (2 * acc)%N s
      else if decide (c = one) then int2_digits (2 * acc + 1)%N s
      else Raise ValueError
  end.

Definition int2 (s : pystr) : result N :=
  match s with [] => Raise ValueError | _ => int2_digits 0%N s end.

Fixpoint bin_digits (p : positive) : pystr :=
  match p with
  | xH => [one]
  | xO p => bin_digits p ++ [zero]
  | xI p => bin_digits p ++ [one]
  end.

(** [bin(n)] for [n >= 0]. *)
Definition bin (n : N) : pystr :=
  ["0"%char; "b"%char] ++ match n with N0 => [zero] | Npos p => bin_digits p end.

(** [s.zfill(width)] on a string with no sign. *)
Definition zfill (width : nat) (s : pystr) : pystr :=
  replicate (width - length s) zero ++ s.

(** [bytearray.append(v)] *)
Definition bytearray_append (b : list N) (v : N) : result (list N) :=
  if decide (v < 256)%N then Ok (b ++ [v]) else Raise ValueError.

(** ** The compressor *)

Section Model.
Context {symbol : Type} `{!EqDecision symbol}.

(** The values a serialized tree and a node's [char] hold: the flags [True]
    and [False], and one-character strings. *)
Inductive value :=
  | VBool (b : bool)
  | VStr (c : symbol).

#[global] Instance value_eq_dec : EqDecision value.
Proof. solve_decision. Defined.

(** Python's truth value: a one-character string is true. *)
Definition truthy (v : value) : bool :=
  match v with VBool b => b | VStr _ => true end.

(** *** class HuffmanNode *)

#[warnings="-register-all"]
Inductive HuffmanNode := mkHuffmanNode {
  char : option value;
  freq : nat;
  left : option HuffmanNode;
  right : option HuffmanNode
}.

(** [HuffmanNode(char, freq)] *)
Definition new_node (char : option value) (freq : nat) : HuffmanNode :=
  mkHuffmanNode char freq None None.

Definition __lt__ (self other : HuffmanNode) : bool :=
  bool_decide (freq self < freq other).

Definition is_leaf (self : HuffmanNode) : bool :=
  match char self with Some _ => true | None => false end.

(** *** class HuffmanCompressor *)

Record HuffmanCompressor := mkHuffmanCompressor {
  frequency_map : dict symbol nat;
  huffman_tree : option HuffmanNode;
  codes : dict value pystr
}.

(** [HuffmanCompressor()] *)
Definition new_compressor : HuffmanCompressor :=
  mkHuffmanCompressor [] None [].

Definition set_frequency_map (self : HuffmanCompressor) m :=
  mkHuffmanCompressor m (huffman_tree self) (codes self).
Definition set_huffman_tree (self : HuffmanCompressor) t :=
  mkHuffmanCompressor (frequency_map self) t (codes self).
Definition set_codes (self : HuffmanCompressor) c :=
  mkHuffmanCompressor (frequency_map self) (huffman_tree self) c.

(** A method: the fields after the call and what the call returned. *)
Definition method (A : Type) : Type := HuffmanCompressor * result A.

Definition calculate_frequencies (self : HuffmanCompressor)
    (text : list symbol) : method (dict symbol nat) :=
  let self := set_frequency_map self (Counter text) in
  (self, Ok (frequency_map self)).

(** The [while len(priority_queue) > 1] loop of [build_huffman_tree]. *)
Fixpoint build_loop (fuel : nat) (priority_queue : list HuffmanNode)
    : result (list HuffmanNode) :=
  if decide (1 < length priority_queue) then
    match fuel with
    | 0 => Raise OutOfFuel
    | S fuel =>
        '(l, priority_queue) ← heapq.heappop __lt__ priority_queue;
        '(r, priority_queue) ← heapq.heappop __lt__ priority_queue;
        let internal_node :=
          mkHuffmanNode None (freq l + freq r) (Some l) (Some r) in
        priority_queue ← heapq.heappush __lt__ priority_queue internal_node;
        build_loop fuel priority_queue
    end
  else Ok priority_queue.

Definition build_huffman_tree (self : HuffmanCompressor)
    : method (option HuffmanNode) :=
  match frequency_map self with
  | [] => (self, Raise ValueError)
  | _ :: _ =>
      let priority_queue :=
        (λ '(char, freq), new_node (Some (VStr char)) freq)
          <$> frequency_map self in
      match
        priority_queue ← heapq.heapify __lt__ priority_queue;
        build_loop (length priority_queue) priority_queue
      with
      | Ok priority_queue =>
          let self := set_huffman_tree self (head priority_queue) in
          (self, Ok (huffman_tree self))
      | Raise e => (self, Raise e)
      end
  end.

(** The body of [generate_codes] for a node that is not [None]: the effect
    on [self.codes]. *)
Fixpoint generate_codes_from (node : HuffmanNode) (code : pystr)
    (codes : dict value pystr) : dict value pystr :=
  match node with
  | mkHuffmanNode (Some char) _ _ _ =>
      dict_set char (match code with [] => [zero] | _ => code end) codes
  | mkHuffmanNode None _ left right =>
      let codes :=
        match left with
        | Some left => generate_codes_from left (code ++ [zero]) codes
        | None => codes
        end in
      match right with
      | Some right => generate_codes_from right (code ++ [one]) codes
      | None => codes
      end
  end.

(** [generate_codes(node, code)]: a leaf returns nothing ([None]), any other
    node returns [self.codes]. *)
Definition generate_codes (self : HuffmanCompressor)
    (node : option HuffmanNode) (code : pystr)
    : method (option (dict value pystr)) :=
  match node with
  | None =>
      match huffman_tree self with
      | None => (self, Raise ValueError)
      | Some node =>
          let self := set_codes self [] in
          let self := set_codes self (generate_codes_from node code (codes self)) in
          (self, Ok (if is_leaf node then None else Some (codes self)))
      end
  | Some node =>
      let self := set_codes self (generate_codes_from node code (codes self)) in
      (self, Ok (if is_leaf node then None else Some (codes self)))
  end.

(** The body of [serialize_tree] for a node that is not [None]. *)
Fixpoint serialize_from (node : HuffmanNode) : list value :=
  match node with
  | mkHuffmanNode (Some char) _ _ _ => [VBool true; char]
  | mkHuffmanNode None _ left right =>
      [VBool false]
      ++ match left with Some left => serialize_from left | None => [] end
      ++ match right with Some right => serialize_from right | None => [] end
  end.

Definition serialize_tree (self : HuffmanCompressor)
    (node : option HuffmanNode) : method (list value) :=
  match node with
  | None =>
      match huffman_tree self with
      | None => (self, Raise ValueError)
      | Some node => (self, Ok (serialize_from node))
      end
  | Some node => (self, Ok (serialize_from node))
  end.

(** [deserialize_tree] on an interpreter that never runs out of frames; the
    recursion is bounded by [fuel]. What the recursion limit adds is in
    [deserialize_frames] below. *)
Fixpoint deserialize_fuel (fuel : nat) (serialized : list value)
    : result (option HuffmanNode * list value) :=
  match serialized with
  | [] => Ok (None, [])
  | is_leaf :: _ =>
      if truthy is_leaf then
        char ← getitem serialized 1;
        Ok (Some (new_node (Some char) 0), drop 2 serialized)
      else
        match fuel with
        | 0 => Raise OutOfFuel
        | S fuel =>
            '(left_node, remaining) ← deserialize_fuel fuel (drop 1 serialized);
            '(right_node, remaining) ← deserialize_fuel fuel remaining;
            Ok (Some (mkHuffmanNode None 0 left_node right_node), remaining)
        end
  end.

Definition deserialize_tree (self : HuffmanCompressor)
    (serialized : list value) : method (option HuffmanNode * list value) :=
  (self, deserialize_fuel (length serialized) serialized).

(** *** deserialize_tree and the recursion limit *)

(** A call of a function that calls nothing itself ([HuffmanNode.__init__]),
    made when [frames] frames are left: it needs one of them. *)
Definition call {A} (frames : nat) (a : A) : result A :=
  match frames with
  | 0 => Raise RecursionError
  | S _ => Ok a
  end.

(** [deserialize_tree], called when [frames] frames are left below the
    interpreter's recursion limit. The call takes one frame, and so does
    every call it makes while it runs: the two recursive ones and the
    construction of the node. *)
Fixpoint deserialize_frames (frames : nat) (serialized : list value)
    : result (option HuffmanNode * list value) :=
  match frames with
  | 0 => Raise RecursionError
  | S frames =>
      match serialized with
      | [] => Ok (None, [])
      | is_leaf :: _ =>
          if truthy is_leaf then
            char ← getitem serialized 1;
            node ← call frames (new_node (Some char) 0);
            Ok (Some node, drop 2 serialized)
          else
            node ← call frames (new_node None 0);
            '(left_node, remaining) ←
              deserialize_frames frames (drop 1 serialized);
            '(right_node, remaining) ← deserialize_frames frames remaining;
            Ok (Some (mkHuffmanNode (char node) (freq node)
                        left_node right_node), remaining)
      end
  end.

Definition deserialize_tree_frames (frames : nat) (self : HuffmanCompressor)
    (serialized : list value) : method (option HuffmanNode * list value) :=
  (self, deserialize_frames frames serialized).

(** *** compress *)

(** [for char in text: encoded_text += self.codes[char]] *)
Fixpoint encode_loop (codes : dict value pystr) (text : list symbol)
    (encoded_text : pystr) : result pystr :=
  match text with
  | [] => Ok encoded_text
  | char :: text =>
      code ← dict_getitem (VStr char) codes;
      encode_loop codes text (encoded_text ++ code)
  end.

(** [for i in range(0, len(padded_text), 8): ...] *)
Fixpoint pack_loop (padded_text : pystr) (idxs : list nat)
    (bytes_array : list N) : result (list N) :=
  match idxs with
  | [] => Ok bytes_array
  | i :: idxs =>
      let byte := slice padded_text i (i + 8) in
      v ← int2 byte;
      bytes_array ← bytearray_append bytes_array v;
      pack_loop padded_text idxs bytes_array
  end.

Definition padding_of (encoded_text : pystr) : nat :=
  if decide (length encoded_text `mod` 8 ≠ 0)
  then 8 - length encoded_text `mod` 8 else 0.

(** What [compress] writes: the pickled pair (serialized tree, padding) of
    the [.hufftree] file and the bytes of the [.huff] file. *)
Record compressed := mkCompressed {
  hufftree : list value * nat;
  huff : list N
}.

(** [compress], from the text read to the two artifacts written. *)
Definition compress (self : HuffmanCompressor) (text : list symbol)
    : method compressed :=
  let '(self, r) := calculate_frequencies self text in
  match r with Raise e => (self, Raise e) | Ok _ =>
  let '(self, r) := build_huffman_tree self in
  match r with Raise e => (self, Raise e) | Ok _ =>
  let '(self, r) := generate_codes self None [] in
  match r with Raise e => (self, Raise e) | Ok _ =>
  (self,
   encoded_text ← encode_loop (codes self) text [];
   let padding := padding_of encoded_text in
   let padded_text := encoded_text ++ replicate padding zero in
   bytes_array ← pack_loop padded_text (range_step (length padded_text) 8) [];
   serialized_tree ← (serialize_tree self None).2;
   Ok (mkCompressed (serialized_tree, padding) bytes_array))
  end end end.

(** *** decompress *)

(** [for byte in byte_data: bits += bin(byte)[2:].zfill(8)] *)
Definition unpack (byte_data : list N) : pystr :=
  foldl (λ bits byte, bits ++ zfill 8 (drop 2 (bin byte))) [] byte_data.

(** [bits[:-padding] if padding else bits] *)
Definition strip_padding (bits : pystr) (padding : nat) : pystr :=
  match padding with
  | 0 => bits
  | _ => take (length bits - padding) bits
  end.

(** The decoding loop; the state is [(current_node, decoded_text)]. *)
Fixpoint decode_loop (huffman_tree : option HuffmanNode) (bits : pystr)
    (current_node : option HuffmanNode) (decoded_text : list symbol)
    : result (option HuffmanNode * list symbol) :=
  match bits with
  | [] => Ok (current_node, decoded_text)
  | bit :: bits =>
      match current_node with
      | None => Raise AttributeError
      | Some node =>
          let current_node :=
            if decide (bit = zero) then left node else right node in
          match current_node with
          | None => Raise AttributeError
          | Some node =>
              if is_leaf node then
                match char node with
                | Some (VStr c) =>
                    decode_loop huffman_tree bits huffman_tree
                      (decoded_text ++ [c])
                | _ => Raise TypeError
                end
              else decode_loop huffman_tree bits current_node decoded_text
          end
      end
  end.

(** [decompress], from the two artifacts read to the text returned. Whatever
    [deserialize_tree] raises is raised again as [IOError]. *)
Definition decompress (self : HuffmanCompressor) (byte_data : list N)
    (hufftree : list value * nat) : method (list symbol) :=
  let '(serialized_tree, padding) := hufftree in
  match deserialize_tree self serialized_tree with
  | (self, Raise _) => (self, Raise IOError)
  | (self, Ok (tree, _)) =>
      let self := set_huffman_tree self tree in
      let bits := unpack byte_data in
      let bits := strip_padding bits padding in
      (self,
       '(_, decoded_text) ← decode_loop (huffman_tree self) bits
                              (huffman_tree self) [];
       Ok decoded_text)
  end.

(** [decompress] when [frames] frames are left for the calls it makes. The
    [RecursionError] of a tree nested too deep is raised inside the [try]
    block, so it is raised again as [IOError] like any other. The walk calls
    [is_leaf] on a node only, and a node is built only when two frames or
    more are left, so that call always finds its frame. *)
Definition decompress_frames (frames : nat) (self : HuffmanCompressor)
    (byte_data : list N) (hufftree : list value * nat)
    : method (list symbol) :=
  let '(serialized_tree, padding) := hufftree in
  match deserialize_tree_frames frames self serialized_tree with
  | (self, Raise _) => (self, Raise IOError)
  | (self, Ok (tree, _)) =>
      let self := set_huffman_tree self tree in
      let bits := unpack byte_data in
      let bits := strip_padding bits padding in
      (self,
       '(_, decoded_text) ← decode_loop (huffman_tree self) bits
                              (huffman_tree self) [];
       Ok decoded_text)
  end.

End Model.
Arguments value : clear implicits.
Arguments HuffmanNode : clear implicits.
Arguments HuffmanCompressor : clear implicits.
Arguments compressed : clear implicits.
Arguments method : clear implicits.

(** * Specification vocabulary *)

(** ** Heap order on a Python list *)

Section HeapOrder.
Context {A : Type} (key : A → nat).

(** [c] is a child position of [p]. *)
Definition child (p c : nat) : Prop := c = 2 * p + 1 ∨ c = 2 * p + 2.

Definition ordered (h : list A) (p c : nat) : Prop :=
  ∀ x y, h !! p = Some x → h !! c = Some y → key x ≤ key y.

(** Every position from [k] on is no larger than its children: [heap_from 0]
    is heapq's heap invariant. *)
Definition heap_from (k : nat) (h : list A) : Prop :=
  ∀ p c, k ≤ p → child p c → ordered h p c.

(** The positions below [s] in the implicit tree. *)
Inductive desc (s : nat) : nat → Prop :=
  | desc_refl : desc s s
  | desc_child p c : desc s p → child p c → desc s c.

End HeapOrder.

(** ** Dicts *)

(** The assignments [d[k] = v] for the pairs of [kvs], in order. *)
Definition dict_update {K V} `{!EqDecision K} (d : dict K V)
    (kvs : list (K * V)) : dict K V :=
  foldl (λ d kv, dict_set kv.1 kv.2 d) d kvs.

(** How often [c] occurs in [text]. *)
Definition occurrences {K} `{!EqDecision K} (c : K) (text : list K) : nat :=
  length (filter (λ x, x = c) text).

(** ** Bit strings *)

Definition binary (s : pystr) : Prop := Forall (λ c, c = zero ∨ c = one) s.

(** ** Trees *)

Section TreeSpec.
Context {symbol : Type} `{!EqDecision symbol}.
Local Abbreviation HuffmanNode := (HuffmanNode symbol).
Local Abbreviation value := (value symbol).

(** Induction on a node and its children. *)
Fixpoint HuffmanNode_nested_ind (P : HuffmanNode → Prop)
    (H : ∀ c f l r,
       (∀ x, l = Some x → P x) → (∀ x, r = Some x → P x) →
       P (mkHuffmanNode c f l r))
    (n : HuffmanNode) : P n :=
  match n with
  | mkHuffmanNode c f l r =>
      H c f l r
        (match l return ∀ x, l = Some x → P x with
         | Some l' => λ x e,
             eq_ind l' P (HuffmanNode_nested_ind P H l') x (Some_inj _ _ e)
         | None => λ x e, match Some_ne_None _ (eq_sym e) with end
         end)
        (match r return ∀ x, r = Some x → P x with
         | Some r' => λ x e,
             eq_ind r' P (HuffmanNode_nested_ind P H r') x (Some_inj _ _ e)
         | None => λ x e, match Some_ne_None _ (eq_sym e) with end
         end)
  end.

(** The code written for a leaf reached with [code]. *)
Definition leaf_code (code : pystr) : pystr :=
  match code with [] => [zero] | _ => code end.

(** The assignments [self.codes[char] = ...] that [generate_codes] performs
    below a node, in order. *)
Fixpoint code_list (node : HuffmanNode) (code : pystr) : list (value * pystr) :=
  match node with
  | mkHuffmanNode (Some char) _ _ _ => [(char, leaf_code code)]
  | mkHuffmanNode None _ left right =>
      match left with
      | Some left => code_list left (code ++ [zero])
      | None => []
      end ++
      match right with
      | Some right => code_list right (code ++ [one])
      | None => []
      end
  end.

(** [leaf_at node path v]: following [path] from [node] ('0' left, anything
    else right) ends exactly at a leaf whose [char] is [v]. *)
Inductive leaf_at : HuffmanNode → pystr → value → Prop :=
  | leaf_here v f l r : leaf_at (mkHuffmanNode (Some v) f l r) [] v
  | leaf_left f l r p v :
      leaf_at l p v → leaf_at (mkHuffmanNode None f (Some l) r) (zero :: p) v
  | leaf_right f l r p v :
      leaf_at r p v → leaf_at (mkHuffmanNode None f l (Some r)) (one :: p) v.

(** A tree as [build_huffman_tree] makes them: a leaf has no child, any other
    node has two. *)
Inductive proper : HuffmanNode → Prop :=
  | proper_leaf v f : proper (mkHuffmanNode (Some v) f None None)
  | proper_internal f l r :
      proper l → proper r → proper (mkHuffmanNode None f (Some l) (Some r)).

(** The node with every [freq] set to 0, as [deserialize_tree] rebuilds it. *)
Fixpoint strip (node : HuffmanNode) : HuffmanNode :=
  match node with
  | mkHuffmanNode c _ l r =>
      mkHuffmanNode c 0
        (match l with Some l => Some (strip l) | None => None end)
        (match r with Some r => Some (strip r) | None => None end)
  end.

(** The initial priority queue: one leaf per entry of the frequency map. *)
Definition leaves_of (m : dict symbol nat) : list HuffmanNode :=
  (λ '(char, freq), new_node (Some (VStr char)) freq) <$> m.


(** The leaves below a node, left to right, with their weight. *)
Fixpoint leaves (node : HuffmanNode) : list (value * nat) :=
  match node with
  | mkHuffmanNode (Some char) freq _ _ => [(char, freq)]
  | mkHuffmanNode None _ left right =>
      match left with Some left => leaves left | None => [] end ++
      match right with Some right => leaves right | None => [] end
  end.

(** *** The forest of [build_huffman_tree] *)

(** How the final tree is assembled from the nodes of a priority queue: the
    nodes of the queue are the atoms, every merge adds an internal node. *)
Inductive skeleton :=
  | SAtom (n : HuffmanNode)
  | SMerge (l r : skeleton).

Fixpoint fill (s : skeleton) : HuffmanNode :=
  match s with
  | SAtom n => n
  | SMerge l r =>
      mkHuffmanNode None (freq (fill l) + freq (fill r))
        (Some (fill l)) (Some (fill r))
  end.

Fixpoint atoms (s : skeleton) : list HuffmanNode :=
  match s with
  | SAtom n => [n]
  | SMerge l r => atoms l ++ atoms r
  end.

(** Depth and weight of every node of the skeleton, the root at depth [d]. *)
Fixpoint levels (d : nat) (s : skeleton) : list (nat * nat) :=
  (d, freq (fill s)) ::
  match s with
  | SAtom _ => []
  | SMerge l r => levels (S d) l ++ levels (S d) r
  end.

(** A strictly lighter node is never higher in the tree. *)
Definition monotone (L : list (nat * nat)) : Prop :=
  ∀ d1 w1 d2 w2, (d1, w1) ∈ L → (d2, w2) ∈ L → w1 < w2 → d2 ≤ d1.

(** The atoms with their depth and the code of the path to them. *)
Fixpoint atom_codes (d : nat) (code : pystr) (s : skeleton)
    : list (HuffmanNode * (nat * pystr)) :=
  match s with
  | SAtom n => [(n, (d, code))]
  | SMerge l r =>
      atom_codes (S d) (code ++ [zero]) l ++ atom_codes (S d) (code ++ [one]) r
  end.

End TreeSpec.
Arguments skeleton : clear implicits.

(** ** Concrete inputs *)

Definition fresh : HuffmanCompressor ascii := new_compressor.

(** "aaaa" *)
Definition text_aaaa : list ascii := ["a"; "a"; "a"; "a"]%char.

(** "abracadabra" *)
Definition text_abracadabra : list ascii :=
  ["a"; "b"; "r"; "a"; "c"; "a"; "d"; "a"; "b"; "r"; "a"]%char.

(** The text of the repository's unit tests. *)
Definition text_test : list ascii :=
  String.list_ascii_of_string
    "este es un texto de prueba para el algoritmo de huffman"%string.

(** A compressor whose frequency map is that of "abracadabra". *)
Definition counted : HuffmanCompressor ascii :=
  (calculate_frequencies fresh text_abracadabra).1.

(** The serialized tree ((a, b), c). *)
Definition tokens_abc : list (value ascii) :=
  [VBool false; VBool false; VBool true; VStr "a"%char;
   VBool true; VStr "b"%char; VBool true; VStr "c"%char].

Definition leaf_a : HuffmanNode ascii := new_node (Some (VStr "a"%char)) 0.
Definition leaf_b : HuffmanNode ascii := new_node (Some (VStr "b"%char)) 0.
Definition leaf_c : HuffmanNode ascii := new_node (Some (VStr "c"%char)) 0.
Definition node_ab : HuffmanNode ascii :=
  mkHuffmanNode None 0 (Some leaf_a) (Some leaf_b).
Definition tree_abc : HuffmanNode ascii :=
  mkHuffmanNode None 0 (Some node_ab) (Some leaf_c).

(** A compressor that holds the one-leaf tree of "aaaa" and a code table
    left by an earlier compression of another text. *)
Definition stale : HuffmanCompressor ascii :=
  mkHuffmanCompressor [("a"%char, 4)]
    (Some (new_node (Some (VStr "a"%char)) 4))
    [(VStr "x"%char, [zero]); (VStr "y"%char, [one])].

(** A compressor that holds the tree ((a, b), c). *)
Definition holding_abc : HuffmanCompressor ascii :=
  set_huffman_tree fresh (Some tree_abc).

(** "cab" *)
Definition text_cab : list ascii := ["c"; "a"; "b"]%char.

(** * Lemmas *)

Ltac rsimpl := cbn [mbind result_bind mret result_ret].

Lemma getitem_lookup {A} (l : list A) i x : l !! i = Some x → getitem l i = Ok x.
Proof. unfold getitem. by intros ->. Qed.

Lemma setitem_lt {A} (l : list A) i x :
  i < length l → setitem l i x = Ok (<[i:=x]> l).
Proof. unfold setitem. intros. by rewrite decide_True. Qed.

(** ** heapq keeps the heap invariant and the elements *)

Section HeapqSpec.
Context {A : Type} (key : A → nat).
Local Abbreviation lt := (λ a b : A, bool_decide (key a < key b)).
Local Abbreviation ordered := (ordered key).
Local Abbreviation heap_from := (heap_from key).

Lemma desc_le s p : desc s p → s ≤ p.
Proof. induction 1 as [|p c _ IH [-> | ->]]; lia. Qed.

Lemma desc_parent s p : desc s p → s < p → desc s ((p - 1) / 2) ∧ child ((p - 1) / 2) p.
Proof.
  destruct 1 as [|p c Hd Hc]; [lia|]. intros _.
  assert ((c - 1) / 2 = p) as -> by (unfold child in Hc; lia). done.
Qed.

Lemma siftdown_loop_spec fuel : ∀ g newitem startpos pos,
  pos ≤ fuel → pos < length g → desc startpos pos →
  (∀ p c, startpos ≤ p → child p c → c ≠ pos →
     ordered (<[pos:=newitem]> g) p c) →
  (startpos < pos → ∀ c, child pos c →
     ordered (<[pos:=newitem]> g) ((pos - 1) / 2) c) →
  ∃ g' pos',
    heapq._siftdown_loop lt fuel g newitem startpos pos = Ok (g', pos') ∧
    pos' < length g' ∧
    <[pos':=newitem]> g' ≡ₚ <[pos:=newitem]> g ∧
    heap_from startpos (<[pos':=newitem]> g').
Proof.
  induction fuel as [|fuel IH]; intros g newitem startpos pos Hfuel Hlen Hdesc Ha Hc;
    cbn [heapq._siftdown_loop]; case_decide as Hlt.
  - lia.
  - exists g, pos. split_and!; [done..|].
    intros p c Hp Hch. destruct (decide (c = pos)) as [->|]; [|by apply Ha].
    apply desc_le in Hdesc. unfold child in Hch. lia.
  - destruct (desc_parent _ _ Hdesc Hlt) as [Hdq Hchq].
    set (q := (pos - 1) / 2) in *.
    assert (q < pos) as Hq by (unfold child in Hchq; lia).
    destruct (lookup_lt_is_Some_2 g q) as [par Hpar]; [lia|].
    rewrite (getitem_lookup _ _ _ Hpar). rsimpl.
    destruct (bool_decide (key newitem < key par)) eqn:Hcmp.
    + apply bool_decide_eq_true in Hcmp.
      rewrite setitem_lt by done. rsimpl.
      destruct (IH (<[pos:=par]> g) newitem startpos q) as (g' & pos' & -> & ? & Hperm & Hheap).
      * lia.
      * rewrite length_insert. lia.
      * done.
      * intros p c Hp Hch Hcq x y Hx Hy.
        assert (startpos ≤ q) by by apply desc_le.
        destruct (decide (c = pos)) as [->|Hcpos].
        { assert (p = q) as -> by (unfold child in *; lia).
          rewrite list_lookup_insert_eq in Hx by (rewrite length_insert; lia).
          rewrite list_lookup_insert_ne, list_lookup_insert_eq in Hy by lia.
          simplify_eq. lia. }
        rewrite list_lookup_insert_ne, list_lookup_insert_ne in Hy by lia.
        destruct (decide (p = pos)) as [->|Hppos].
        { rewrite list_lookup_insert_ne, list_lookup_insert_eq in Hx by lia.
          simplify_eq. apply (Hc Hlt c Hch); [|by rewrite list_lookup_insert_ne by lia].
          by rewrite list_lookup_insert_ne by lia. }
        destruct (decide (p = q)) as [->|Hpq].
        { rewrite list_lookup_insert_eq in Hx by (rewrite length_insert; lia).
          simplify_eq.
          assert (key par ≤ key y); [|lia].
          apply (Ha q c); [done..| |]; by rewrite list_lookup_insert_ne by lia. }
        rewrite list_lookup_insert_ne, list_lookup_insert_ne in Hx by lia.
        apply (Ha p c); [done..| |]; by rewrite list_lookup_insert_ne by lia.
      * intros Hsq c Hch x y Hx Hy.
        destruct (desc_parent _ _ Hdq Hsq) as [Hdq' Hchq'].
        set (q' := (q - 1) / 2) in *.
        assert (q' < q) by (unfold child in Hchq'; lia).
        assert (startpos ≤ q') by by apply desc_le.
        rewrite list_lookup_insert_ne, list_lookup_insert_ne in Hx by lia.
        assert (key x ≤ key par).
        { apply (Ha q' q); [done..|lia| |]; by rewrite list_lookup_insert_ne by lia. }
        destruct (decide (c = pos)) as [->|Hcpos].
        { rewrite list_lookup_insert_ne, list_lookup_insert_eq in Hy by lia.
          by simplify_eq. }
        rewrite list_lookup_insert_ne, list_lookup_insert_ne in Hy by (unfold child in *; lia).
        assert (key par ≤ key y); [|lia].
        assert (startpos ≤ q) by by apply desc_le.
        apply (Ha q c); [done..| |]; by rewrite list_lookup_insert_ne by lia.
      * exists g', pos'. split_and!; [done..| |done].
        rewrite Hperm.
        rewrite <-(list_insert_insert_eq g pos par newitem).
        apply Permutation_insert_swap.
        -- by apply list_lookup_insert_eq.
        -- by rewrite list_lookup_insert_ne by lia.
    + apply bool_decide_eq_false in Hcmp.
      exists g, pos. split_and!; [done..|].
      intros p c Hp Hch. destruct (decide (c = pos)) as [->|]; [|by apply Ha].
      assert (p = q) as -> by (unfold child in *; lia).
      intros x y Hx Hy.
      rewrite list_lookup_insert_ne in Hx by lia.
      rewrite list_lookup_insert_eq in Hy by lia. simplify_eq. lia.
  - exists g, pos. split_and!; [done..|].
    intros p c Hp Hch. destruct (decide (c = pos)) as [->|]; [|by apply Ha].
    apply desc_le in Hdesc. unfold child in Hch. lia.
Qed.

Lemma siftdown_spec h startpos pos :
  pos < length h → desc startpos pos →
  (∀ p c, startpos ≤ p → child p c → c ≠ pos → ordered h p c) →
  (startpos < pos → ∀ c, child pos c → ordered h ((pos - 1) / 2) c) →
  ∃ h', heapq._siftdown lt h startpos pos = Ok h' ∧ h' ≡ₚ h ∧
        heap_from startpos h'.
Proof.
  intros Hlen Hdesc Ha Hc. unfold heapq._siftdown.
  destruct (lookup_lt_is_Some_2 h pos) as [newitem Hnew]; [done|].
  rewrite (getitem_lookup _ _ _ Hnew). rsimpl.
  destruct (siftdown_loop_spec pos h newitem startpos pos)
    as (g' & pos' & -> & ? & Hperm & Hheap); [done..| | |].
  - by rewrite list_insert_id.
  - by rewrite list_insert_id.
  - rsimpl. rewrite setitem_lt by done. eexists. split; [done|].
    split; [|done]. by rewrite Hperm, list_insert_id.
Qed.

(** The child that [_siftup] moves up is the smaller one. *)
Lemma siftup_choice (h : list A) pos :
  2 * pos + 1 < length h →
  ∃ c' x,
    (if decide (2 * pos + 1 + 1 < length h) then
       c ← getitem h (2 * pos + 1);
       r ← getitem h (2 * pos + 1 + 1);
       Ok (if negb (bool_decide (key c < key r))
           then 2 * pos + 1 + 1 else 2 * pos + 1)
     else Ok (2 * pos + 1)) = Ok c' ∧
    child pos c' ∧ h !! c' = Some x ∧
    ∀ c y, child pos c → h !! c = Some y → key x ≤ key y.
Proof.
  intros Hlen.
  destruct (lookup_lt_is_Some_2 h (2 * pos + 1)) as [l Hl]; [done|].
  case_decide as Hr.
  - destruct (lookup_lt_is_Some_2 h (2 * pos + 1 + 1)) as [r Hrr]; [done|].
    rewrite (getitem_lookup _ _ _ Hl), (getitem_lookup _ _ _ Hrr). rsimpl.
    case_bool_decide as Hcmp; cbn [negb].
    + exists (2 * pos + 1), l. split_and!; [done|by left|done|].
      intros c y [-> | ->] Hy; simplify_eq; [lia|].
      replace (2 * pos + 2) with (2 * pos + 1 + 1) in Hy by lia. simplify_eq. lia.
    + exists (2 * pos + 1 + 1), r. split_and!; [done|right; lia|done|].
      intros c y [-> | ->] Hy; simplify_eq; [lia|].
      replace (2 * pos + 2) with (2 * pos + 1 + 1) in Hy by lia. simplify_eq. lia.
  - exists (2 * pos + 1), l. split_and!; [done|by left|done|].
    intros c y [-> | ->] Hy; simplify_eq; [lia|].
    apply lookup_lt_Some in Hy. lia.
Qed.

Lemma siftup_loop_spec newitem startpos fuel : ∀ h pos,
  length h - pos ≤ fuel → pos < length h → desc startpos pos →
  (∀ p c, startpos ≤ p → child p c → p ≠ pos ∨ pos ≠ startpos →
     ordered h p c) →
  ∃ h' pos',
    heapq._siftup_loop lt fuel h (length h) pos = Ok (h', pos') ∧
    length h' = length h ∧ pos' < length h ∧ desc startpos pos' ∧
    length h ≤ 2 * pos' + 1 ∧
    <[pos':=newitem]> h' ≡ₚ <[pos:=newitem]> h ∧
    (∀ p c, startpos ≤ p → child p c → p ≠ pos' ∨ pos' ≠ startpos →
       ordered h' p c).
Proof.
  induction fuel as [|fuel IH]; intros h pos Hfuel Hlen Hdesc Hi;
    cbn [heapq._siftup_loop]; case_decide as Hlt.
  - lia.
  - exists h, pos. split_and!; [done..|lia|done|done].
  - destruct (siftup_choice h pos Hlt) as (c' & x & -> & Hch & Hx & Hmin).
    rsimpl. rewrite (getitem_lookup _ _ _ Hx). rsimpl.
    rewrite setitem_lt by done. rsimpl.
    assert (pos < c') as Hpc by (unfold child in Hch; lia).
    assert (c' < length h) by by eapply lookup_lt_Some.
    assert (startpos ≤ pos) by by apply desc_le.
    destruct (IH (<[pos:=x]> h) c') as (h' & pos' & Heq & Hl' & ? & ? & ? & Hperm & Hi').
    + rewrite length_insert. lia.
    + by rewrite length_insert.
    + by eapply desc_child.
    + intros p c Hp Hpc' _ a b Ha Hb.
      destruct (decide (p = pos)) as [->|Hppos].
      * rewrite list_lookup_insert_eq in Ha by done. simplify_eq.
        rewrite list_lookup_insert_ne in Hb by (unfold child in *; lia).
        by eapply Hmin.
      * rewrite list_lookup_insert_ne in Ha by done.
        destruct (decide (c = pos)) as [->|Hcpos].
        -- rewrite list_lookup_insert_eq in Hb by done. simplify_eq.
           destruct (lookup_lt_is_Some_2 h pos) as [y Hy]; [done|].
           assert (key a ≤ key y) by (eapply (Hi p pos); eauto).
           assert (key y ≤ key b); [|lia].
           eapply (Hi pos c'); eauto. right. unfold child in *; lia.
        -- rewrite list_lookup_insert_ne in Hb by done.
           eapply (Hi p c); eauto.
    + rewrite length_insert in *. rewrite Heq.
      exists h', pos'. split_and!; [done..| |done].
      rewrite Hperm.
      rewrite <-(list_insert_insert_eq h pos x newitem).
      apply Permutation_insert_swap.
      * by apply list_lookup_insert_eq.
      * by rewrite list_lookup_insert_ne by lia.
  - exists h, pos. split_and!; [done..|lia|done|done].
Qed.

Lemma siftup_spec h pos :
  pos < length h → heap_from (S pos) h →
  ∃ h', heapq._siftup lt h pos = Ok h' ∧ h' ≡ₚ h ∧ heap_from pos h'.
Proof.
  intros Hlen Hheap. unfold heapq._siftup.
  destruct (lookup_lt_is_Some_2 h pos) as [newitem Hnew]; [done|].
  rewrite (getitem_lookup _ _ _ Hnew). rsimpl.
  destruct (siftup_loop_spec newitem pos (length h) h pos)
    as (h' & pos' & -> & Hl' & ? & Hdesc & Hleaf & Hperm & Hi);
    [lia|done|constructor| |].
  { intros p c Hp Hch [?|?]; [|done]. apply Hheap; [lia|done]. }
  rsimpl. rewrite setitem_lt by lia. rsimpl.
  destruct (siftdown_spec (<[pos':=newitem]> h') pos pos')
    as (h'' & -> & Hperm' & Hheap').
  - rewrite length_insert. lia.
  - done.
  - intros p c Hp Hch Hc x y Hx Hy.
    rewrite list_lookup_insert_ne in Hy by done.
    destruct (decide (p = pos')) as [->|Hne].
    + apply lookup_lt_Some in Hy. unfold child in Hch. lia.
    + rewrite list_lookup_insert_ne in Hx by done. eapply (Hi p c); eauto.
  - intros _ c Hch x y _ Hy.
    apply lookup_lt_Some in Hy. rewrite length_insert in Hy.
    unfold child in Hch. lia.
  - exists h''. split_and!; [done| |done].
    by rewrite Hperm', Hperm, list_insert_id.
Qed.

Lemma desc_0 n : desc 0 n.
Proof.
  induction (lt_wf n) as [n _ IH]. destruct n as [|n]; [constructor|].
  apply (desc_child 0 (n / 2)); [apply IH; lia|]. unfold child. lia.
Qed.

Lemma heapify_loop_spec k : ∀ h,
  k ≤ length h → heap_from k h →
  ∃ h', heapq._heapify_loop lt (reverse (seq 0 k)) h = Ok h' ∧ h' ≡ₚ h ∧
        heap_from 0 h'.
Proof.
  induction k as [|k IH]; intros h Hk Hheap.
  - by exists h.
  - rewrite seq_S, reverse_app. cbn [reverse rev_append app plus heapq._heapify_loop].
    change (rev_append (seq 0 k) []) with (reverse (seq 0 k)).
    destruct (siftup_spec h k) as (h1 & -> & Hperm & Hheap1); [lia|done|].
    rsimpl. destruct (IH h1) as (h' & -> & Hperm' & Hheap'); [|done|].
    + rewrite Hperm. lia.
    + exists h'. split_and!; [done| |done]. by rewrite Hperm'.
Qed.

Lemma heapify_spec h :
  ∃ h', heapq.heapify lt h = Ok h' ∧ h' ≡ₚ h ∧ heap_from 0 h'.
Proof.
  apply heapify_loop_spec; [lia|].
  intros p c Hp Hch x y _ Hy. apply lookup_lt_Some in Hy.
  unfold child in Hch. lia.
Qed.

(** The root of a heap is a minimum. *)
Lemma heap_min h r :
  heap_from 0 h → h !! 0 = Some r → ∀ y, y ∈ h → key r ≤ key y.
Proof.
  intros Hheap Hr y [i Hy]%list_elem_of_lookup. revert y Hy.
  induction (lt_wf i) as [i _ IH]; intros y Hy.
  destruct i as [|i]; [by simplify_eq|].
  destruct (lookup_lt_is_Some_2 h (i / 2)) as [z Hz].
  { apply lookup_lt_Some in Hy. lia. }
  assert (key r ≤ key z) by (apply (IH (i / 2)); [lia|done]).
  assert (key z ≤ key y); [|lia].
  apply (Hheap (i / 2) (S i)); [lia| |done..]. unfold child. lia.
Qed.

Lemma heappop_spec h :
  h ≠ [] → heap_from 0 h →
  ∃ x h', heapq.heappop lt h = Ok (x, h') ∧ h ≡ₚ x :: h' ∧
          heap_from 0 h' ∧ ∀ y, y ∈ h → key x ≤ key y.
Proof.
  intros Hne Hheap. unfold heapq.heappop, pop.
  destruct (last h) as [lastelt|] eqn:Hlast; [|by apply last_None in Hlast].
  apply last_Some in Hlast as [h0 ->]. rewrite removelast_last. rsimpl.
  destruct h0 as [|r t].
  - exists lastelt, []. split_and!; [done..| |].
    + intros p c _ _ x y Hx. done.
    + by intros y ->%list_elem_of_singleton.
  - rewrite (getitem_lookup _ 0 r) by done. rsimpl.
    rewrite setitem_lt by (simpl; lia). rsimpl. cbn [insert list_insert].
    destruct (siftup_spec (lastelt :: t) 0) as (h' & -> & Hperm & Hheap');
      [simpl; lia| |].
    { intros p c Hp Hch x y Hx Hy.
      assert (c < length (lastelt :: t)) by by eapply lookup_lt_Some.
      assert (p < c) by (unfold child in Hch; lia).
      destruct p as [|p]; [lia|]. destruct c as [|c]; [lia|].
      simpl in *. apply (Hheap (S p) (S c)); [lia|done|..]; simpl.
      - rewrite lookup_app_l by lia. done.
      - rewrite lookup_app_l by lia. done. }
    rsimpl. exists r, h'. split_and!; [done| |done|].
    + rewrite Hperm. simpl. f_equiv. by rewrite <-Permutation_cons_append.
    + by apply heap_min.
Qed.

Lemma heappush_spec h x :
  heap_from 0 h →
  ∃ h', heapq.heappush lt h x = Ok h' ∧ h' ≡ₚ x :: h ∧ heap_from 0 h'.
Proof.
  intros Hheap. unfold heapq.heappush.
  destruct (siftdown_spec (h ++ [x]) 0 (length (h ++ [x]) - 1))
    as (h' & -> & Hperm & Hheap').
  - rewrite length_app. simpl. lia.
  - apply desc_0.
  - rewrite length_app. simpl. intros p c _ Hch Hc a b Ha Hb.
    assert (c < length h).
    { apply lookup_lt_Some in Hb. rewrite length_app in Hb. simpl in Hb. lia. }
    assert (p < c) by (unfold child in Hch; lia).
    rewrite lookup_app_l in Ha, Hb by lia. apply (Hheap p c); [lia|done..].
  - rewrite length_app. simpl. intros _ c Hch a b _ Hb.
    apply lookup_lt_Some in Hb. rewrite length_app in Hb. simpl in Hb.
    unfold child in Hch. lia.
  - exists h'. split_and!; [done| |done].
    by rewrite Hperm, <-Permutation_cons_append.
Qed.
End HeapqSpec.

(** ** Dicts and Counter *)

Section DictFacts.
Context {K V : Type} `{!EqDecision K}.
Implicit Types (d : dict K V) (k : K) (v : V).

Lemma dict_get_set d k k' v :
  dict_get k' (dict_set k v d) = if decide (k' = k) then Some v else dict_get k' d.
Proof.
  induction d as [|[k0 v0] d IH]; simpl.
  - by repeat case_decide.
  - repeat (case_decide; simplify_eq/=); try done; try congruence.
Qed.

Lemma dict_get_Some d k v : dict_get k d = Some v → (k, v) ∈ d.
Proof.
  induction d as [|[k0 v0] d IH]; simpl; [done|].
  case_decide; intros; simplify_eq; [left|right; auto].
Qed.

Lemma dict_get_is_Some d k : k ∈ keys d ↔ is_Some (dict_get k d).
Proof.
  unfold keys. induction d as [|[k0 v0] d IH]; simpl.
  - split; [by intros ?%elem_of_nil|by intros [? ?]].
  - rewrite elem_of_cons, IH. case_decide; naive_solver.
Qed.

Lemma dict_get_NoDup d k v : NoDup (keys d) → (k, v) ∈ d → dict_get k d = Some v.
Proof.
  unfold keys. induction d as [|[k0 v0] d IH]; simpl; [by intros _ ?%elem_of_nil|].
  intros [Hk0 Hnd]%NoDup_cons [[= -> ->]|Hin]%elem_of_cons.
  - by rewrite decide_True.
  - rewrite decide_False; [auto|]. intros ->. apply Hk0.
    apply list_elem_of_fmap. by exists (k0, v).
Qed.

Lemma elem_of_keys_dict_set d k k' v :
  k' ∈ keys (dict_set k v d) ↔ k' = k ∨ k' ∈ keys d.
Proof.
  rewrite !dict_get_is_Some, dict_get_set. case_decide; naive_solver.
Qed.

Lemma NoDup_keys_dict_set d k v : NoDup (keys d) → NoDup (keys (dict_set k v d)).
Proof.
  unfold keys. induction d as [|[k0 v0] d IH]; simpl.
  - intros _. apply NoDup_singleton.
  - intros [Hk0 Hnd]%NoDup_cons. case_decide; simplify_eq/=.
    + by apply NoDup_cons.
    + apply NoDup_cons. split; [|auto].
      fold (keys (dict_set k v d)). rewrite elem_of_keys_dict_set. naive_solver.
Qed.

Lemma dict_update_get d kvs k v :
  dict_get k (dict_update d kvs) = Some v → (k, v) ∈ kvs ∨ dict_get k d = Some v.
Proof.
  revert d. induction kvs as [|[k0 v0] kvs IH]; intros d; simpl; [auto|].
  intros [Hin|Hget]%IH; [left; by right|].
  simpl in Hget. rewrite dict_get_set in Hget. case_decide; simplify_eq; [|by right].
  left; left.
Qed.

Lemma dict_update_keys d kvs k :
  k ∈ keys (dict_update d kvs) ↔ k ∈ kvs.*1 ∨ k ∈ keys d.
Proof.
  revert d. induction kvs as [|[k0 v0] kvs IH]; intros d; simpl.
  - rewrite elem_of_nil. naive_solver.
  - rewrite IH, elem_of_keys_dict_set, elem_of_cons. simpl. naive_solver.
Qed.

End DictFacts.

Section CounterFacts.
Context {K : Type} `{!EqDecision K}.

Lemma Counter_foldl_keys (text : list K) : ∀ d : dict K nat,
  (NoDup (keys d) →
   NoDup (keys (foldl (λ c x, dict_set x (default 0 (dict_get x c) + 1) c) d text))) ∧
  ∀ k, k ∈ keys (foldl (λ c x, dict_set x (default 0 (dict_get x c) + 1) c) d text)
       ↔ k ∈ keys d ∨ k ∈ text.
Proof.
  induction text as [|x text IH]; intros d; simpl.
  - split; [done|]. intros k. rewrite elem_of_nil. naive_solver.
  - destruct (IH (dict_set x (default 0 (dict_get x d) + 1) d)) as [IH1 IH2].
    split.
    + intros Hnd. by apply IH1, NoDup_keys_dict_set.
    + intros k. rewrite IH2, elem_of_keys_dict_set, elem_of_cons. naive_solver.
Qed.

Lemma Counter_NoDup (text : list K) : NoDup (keys (Counter text)).
Proof. apply Counter_foldl_keys. apply NoDup_nil_2. Qed.

Lemma Counter_keys (text : list K) k : k ∈ keys (Counter text) ↔ k ∈ text.
Proof.
  unfold Counter. rewrite (proj2 (Counter_foldl_keys text [])).
  unfold keys. simpl. rewrite elem_of_nil. naive_solver.
Qed.

End CounterFacts.

(** ** Codes and paths *)

Section Trees.
Context {symbol : Type} `{!EqDecision symbol}.
Local Abbreviation HuffmanNode := (HuffmanNode symbol).
Local Abbreviation value := (value symbol).
Local Abbreviation skeleton := (skeleton symbol).

Lemma generate_codes_from_code_list (node : HuffmanNode) : ∀ code codes,
  generate_codes_from node code codes = dict_update codes (code_list node code).
Proof.
  induction node as [c f l r IHl IHr] using HuffmanNode_nested_ind.
  intros code codes. destruct c as [c|]; [by destruct code|].
  simpl. unfold dict_update. rewrite foldl_app.
  destruct l as [l|], r as [r|]; simpl.
  - rewrite (IHl l eq_refl), (IHr r eq_refl). done.
  - by rewrite (IHl l eq_refl).
  - by rewrite (IHr r eq_refl).
  - done.
Qed.

Lemma code_list_leaf_at (node : HuffmanNode) : ∀ code v c,
  (v, c) ∈ code_list node code →
  ∃ p, leaf_at node p v ∧ c = leaf_code (code ++ p).
Proof.
  induction node as [ch f l r IHl IHr] using HuffmanNode_nested_ind.
  intros code v c Hin. destruct ch as [ch|]; simpl in Hin.
  - apply list_elem_of_singleton in Hin as [= -> ->].
    exists []. split; [constructor|by rewrite app_nil_r].
  - apply elem_of_app in Hin as [Hin|Hin].
    + destruct l as [l|]; [|by apply elem_of_nil in Hin].
      destruct (IHl l eq_refl _ _ _ Hin) as (p & Hp & ->).
      exists (zero :: p). split; [by constructor|]. by rewrite <-app_assoc.
    + destruct r as [r|]; [|by apply elem_of_nil in Hin].
      destruct (IHr r eq_refl _ _ _ Hin) as (p & Hp & ->).
      exists (one :: p). split; [by constructor|]. by rewrite <-app_assoc.
Qed.

Lemma leaf_at_code_list (node : HuffmanNode) p v :
  leaf_at node p v → ∀ code, (v, leaf_code (code ++ p)) ∈ code_list node code.
Proof.
  induction 1 as [v f l r|f l r p v _ IH|f l r p v _ IH]; intros code; simpl.
  - rewrite app_nil_r. apply list_elem_of_singleton. done.
  - apply elem_of_app. left. specialize (IH (code ++ [zero])).
    by rewrite <-app_assoc in IH.
  - apply elem_of_app. right. specialize (IH (code ++ [one])).
    by rewrite <-app_assoc in IH.
Qed.

(** A path to a leaf cannot be extended to another leaf. *)
Lemma leaf_at_prefix (node : HuffmanNode) p v :
  leaf_at node p v → ∀ q w, leaf_at node (p ++ q) w → q = [] ∧ w = v.
Proof.
  induction 1 as [v f l r|f l r p v _ IH|f l r p v _ IH]; intros q w Hq.
  - inversion Hq; by simplify_eq.
  - inversion Hq; simplify_eq. by apply IH.
  - inversion Hq; simplify_eq. by apply IH.
Qed.


(** ** The forest of [build_huffman_tree] *)

Lemma levels_root d (s : skeleton) : (d, freq (fill s)) ∈ levels d s.
Proof. destruct s; left. Qed.

Lemma levels_bound (s : skeleton) : ∀ d b,
  (∀ a, a ∈ atoms s → b ≤ freq a) →
  ∀ d' w, (d', w) ∈ levels d s →
    b ≤ w ∧
    ((d', w) = (d, freq (fill s)) ∨
     (d < d' ∧ ∃ w', (d' - 1, w') ∈ levels d s ∧ w + b ≤ w')).
Proof.
  induction s as [n|l IHl r IHr]; intros d b Hb d' w Hin.
  - apply list_elem_of_singleton in Hin as [= -> ->].
    split; [|by left]. apply Hb. simpl. by left.
  - simpl in Hb.
    assert (b ≤ freq (fill l)) as Hbl.
    { eapply (IHl (S d) b); [|apply levels_root]. intros a Ha. apply Hb, elem_of_app. auto. }
    assert (b ≤ freq (fill r)) as Hbr.
    { eapply (IHr (S d) b); [|apply levels_root]. intros a Ha. apply Hb, elem_of_app. auto. }
    cbn [levels] in Hin |- *.
    apply elem_of_cons in Hin as [[= -> ->]|Hin].
    { split; [simpl; lia|by left]. }
    apply elem_of_app in Hin as [Hin|Hin].
    + destruct (IHl (S d) b) with (d' := d') (w := w) as [Hw Hcase]; [|done|].
      { intros a Ha. apply Hb, elem_of_app. auto. }
      split; [done|]. right. destruct Hcase as [[= -> ->]|(Hd & w' & Hw' & Hle)].
      * split; [lia|]. exists (freq (fill (SMerge l r))). split; [|simpl; lia].
        replace (S d - 1) with d by lia. left.
      * split; [lia|]. exists w'. split; [|done]. right. apply elem_of_app. auto.
    + destruct (IHr (S d) b) with (d' := d') (w := w) as [Hw Hcase]; [|done|].
      { intros a Ha. apply Hb, elem_of_app. auto. }
      split; [done|]. right. destruct Hcase as [[= -> ->]|(Hd & w' & Hw' & Hle)].
      * split; [lia|]. exists (freq (fill (SMerge l r))). split; [|simpl; lia].
        replace (S d - 1) with d by lia. left.
      * split; [lia|]. exists w'. split; [|done]. right. apply elem_of_app. auto.
Qed.

(** Replacing an atom that was made by a merge with the two merged nodes. *)
Lemma expand_atom (x y : HuffmanNode) (s' : skeleton) :
  let m := mkHuffmanNode None (freq x + freq y) (Some x) (Some y) in
  ∀ d, m ∈ atoms s' →
  ∃ s dm rest,
    fill s = fill s' ∧ atoms s' ≡ₚ m :: rest ∧ atoms s ≡ₚ x :: y :: rest ∧
    levels d s ≡ₚ (S dm, freq x) :: (S dm, freq y) :: levels d s' ∧
    (dm, freq m) ∈ levels d s'.
Proof.
  intros m. induction s' as [n|l IHl r IHr]; intros d Hin.
  - apply list_elem_of_singleton in Hin as <-.
    exists (SMerge (SAtom x) (SAtom y)), d, []. split_and!; [done..| |left].
    simpl. apply Permutation_cons_append.
  - simpl in Hin. apply elem_of_app in Hin as [Hin|Hin].
    + destruct (IHl (S d) Hin) as (sl & dm & rest & Hfill & Hat' & Hat & Hlev & Hm).
      exists (SMerge sl r), dm, (rest ++ atoms r). split_and!.
      * simpl. by rewrite Hfill.
      * simpl. by rewrite Hat'.
      * simpl. by rewrite Hat.
      * cbn [levels]. rewrite Hlev. cbn [fill]. rewrite Hfill. solve_Permutation.
      * cbn [levels]. right. apply elem_of_app. auto.
    + destruct (IHr (S d) Hin) as (sr & dm & rest & Hfill & Hat' & Hat & Hlev & Hm).
      exists (SMerge l sr), dm, (atoms l ++ rest). split_and!.
      * simpl. by rewrite Hfill.
      * simpl. rewrite Hat'. solve_Permutation.
      * simpl. rewrite Hat. solve_Permutation.
      * cbn [levels]. rewrite Hlev. cbn [fill]. rewrite Hfill. solve_Permutation.
      * cbn [levels]. right. apply elem_of_app. auto.
Qed.


Lemma monotone_expand (L L' : list (nat * nat)) dm fx fy :
  L ≡ₚ (S dm, fx) :: (S dm, fy) :: L' →
  monotone L' → (dm, fx + fy) ∈ L' → fx ≤ fy →
  (∀ d w, (d, w) ∈ L' →
     fy ≤ w ∧ (d = 0 ∨ ∃ w', (d - 1, w') ∈ L' ∧ w + fy ≤ w')) →
  monotone L.
Proof.
  intros HL Hmono Hm Hxy Hbound d1 w1 d2 w2 H1 H2 Hlt.
  rewrite HL in H1, H2.
  assert (∀ d w, (d, w) ∈ L' → fx ≤ w → fx < w ∨ fy < w → d ≤ S dm) as Hnew.
  { intros d w Hin Hle Hw. destruct (decide (d ≤ S dm)) as [|Hd]; [done|].
    destruct (Hbound d w Hin) as [_ [->|(w' & Hw' & Hle')]]; [lia|].
    assert (d - 1 ≤ dm); [|lia].
    eapply (Hmono dm (fx + fy) (d - 1) w'); [done..|]. lia. }
  apply elem_of_cons in H1 as [[= -> ->]|H1];
    [|apply elem_of_cons in H1 as [[= -> ->]|H1]];
  (apply elem_of_cons in H2 as [[= -> ->]|H2];
    [|apply elem_of_cons in H2 as [[= -> ->]|H2]]); try lia.
  - apply (Hnew d2 w2); [done|lia|lia].
  - apply (Hnew d2 w2); [done| |lia]. destruct (Hbound d2 w2 H2). lia.
  - destruct (Hbound d1 w1 H1). lia.
  - destruct (Hbound d1 w1 H1). lia.
  - by eapply Hmono.
Qed.

Lemma build_loop_spec fuel : ∀ pq : list HuffmanNode,
  length pq ≤ fuel → pq ≠ [] → heap_from freq 0 pq →
  ∃ s, build_loop fuel pq = Ok [fill s] ∧ atoms s ≡ₚ pq ∧
       monotone (levels 0 s).
Proof.
  induction fuel as [|fuel IH]; intros pq Hfuel Hne Hheap;
    cbn [build_loop]; case_decide as Hlen.
  - lia.
  - destruct pq as [|t [|??]]; simpl in *; [done| |lia].
    exists (SAtom t). split_and!; [done..|].
    intros d1 w1 d2 w2 [= -> ->]%list_elem_of_singleton
      [= -> ->]%list_elem_of_singleton. lia.
  - unfold __lt__.
    destruct (heappop_spec freq pq Hne Hheap) as (x & pq1 & -> & Hp1 & Hheap1 & Hminx).
    rsimpl.
    assert (pq1 ≠ []) as Hne1.
    { intros ->. rewrite Hp1 in Hlen. simpl in Hlen. lia. }
    destruct (heappop_spec freq pq1 Hne1 Hheap1) as (y & pq2 & -> & Hp2 & Hheap2 & Hminy).
    rsimpl. set (m := mkHuffmanNode None (freq x + freq y) (Some x) (Some y)).
    destruct (heappush_spec freq pq2 m Hheap2) as (pq3 & -> & Hp3 & Hheap3).
    rsimpl.
    destruct (IH pq3) as (s' & Hrun & Hat' & Hmono').
    { rewrite Hp3. rewrite Hp1, Hp2 in Hfuel. simpl in *. lia. }
    { intros ->. by apply Permutation_nil_cons in Hp3. }
    { done. }
    fold (@__lt__ symbol) in Hrun. rewrite Hrun.
    destruct (expand_atom x y s' 0) as (s & dm & rest & Hfill & Hat1 & Hat & Hlev & Hm).
    { rewrite Hat', Hp3. left. }
    exists s. split_and!.
    + by rewrite Hfill.
    + rewrite Hat, Hp1, Hp2. do 2 f_equiv.
      apply (Permutation_cons_inv (a:=m)). unfold m. by rewrite <-Hat1, Hat', Hp3.
    + assert (freq x ≤ freq y) as Hxy.
      { apply Hminx. rewrite Hp1, Hp2. right; left. }
      eapply monotone_expand; [done..|].
      intros d w Hin.
      destruct (levels_bound s' 0 (freq y)) with (d' := d) (w := w)
        as [Hw Hcase]; [|done|].
      { intros a. rewrite Hat', Hp3. intros [->|Ha]%elem_of_cons; [simpl; lia|].
        apply Hminy. rewrite Hp2. by right. }
      split; [done|]. destruct Hcase as [[= -> _]|(? & w' & ? & ?)]; [by left|].
      right. by exists w'.
  - destruct pq as [|t [|??]]; simpl in *; [done| |lia].
    exists (SAtom t). split_and!; [done..|].
    intros d1 w1 d2 w2 [= -> ->]%list_elem_of_singleton
      [= -> ->]%list_elem_of_singleton. lia.
Qed.

End Trees.

(** ** Bits and bytes *)

Lemma binary_app s1 s2 : binary (s1 ++ s2) ↔ binary s1 ∧ binary s2.
Proof. apply Forall_app. Qed.

Lemma binary_replicate n : binary (replicate n zero).
Proof. apply Forall_replicate. by left. Qed.

(** Eight binary digits are what [bin] and [zfill] give back for their
    value. *)
Lemma byte_roundtrip (s : pystr) :
  length s = 8 → binary s →
  ∃ v, int2 s = Ok v ∧ (v < 256)%N ∧ zfill 8 (drop 2 (bin v)) = s.
Proof.
  intros Hlen Hb.
  do 8 (destruct s as [|? s]; [done|]). destruct s; [|done]. clear Hlen.
  unfold binary in Hb.
  repeat match goal with
  | H : Forall _ (_ :: _) |- _ => apply Forall_cons in H as [[-> | ->] H]
  end;
  eexists; (split; [reflexivity|split; [reflexivity|reflexivity]]).
Qed.

Lemma unpack_snoc (byte_data : list N) v :
  unpack (byte_data ++ [v]) = unpack byte_data ++ zfill 8 (drop 2 (bin v)).
Proof. unfold unpack. by rewrite foldl_app. Qed.

Lemma pack_loop_spec n : ∀ k (padded_text : pystr) bytes_array,
  binary padded_text → length padded_text = 8 * (k + n) →
  ∃ bytes,
    pack_loop padded_text ((λ j, j * 8) <$> seq k n) bytes_array = Ok bytes ∧
    unpack bytes = unpack bytes_array ++ drop (8 * k) padded_text.
Proof.
  induction n as [|n IH]; intros k padded acc Hbin Hlen; cbn [seq fmap list_fmap pack_loop].
  - exists acc. split; [done|]. rewrite drop_ge by lia. by rewrite app_nil_r.
  - unfold slice. replace (k * 8 + 8 - k * 8) with 8 by lia.
    destruct (byte_roundtrip (take 8 (drop (k * 8) padded))) as (v & -> & Hv & Hback).
    { rewrite length_take, length_drop. lia. }
    { by apply Forall_take, Forall_drop. }
    rsimpl. unfold bytearray_append. rewrite decide_True by done. rsimpl.
    destruct (IH (S k) padded (acc ++ [v])) as (bytes & -> & Hun); [done|lia|].
    exists bytes. split; [done|].
    rewrite Hun, unpack_snoc, Hback, <-app_assoc. f_equal.
    replace (8 * S k) with (k * 8 + 8) by lia.
    replace (8 * k) with (k * 8) by lia.
    by rewrite <-drop_drop, take_drop.
Qed.

Lemma pack_unpack (padded_text : pystr) :
  binary padded_text → length padded_text `mod` 8 = 0 →
  ∃ bytes,
    pack_loop padded_text (range_step (length padded_text) 8) [] = Ok bytes ∧
    unpack bytes = padded_text.
Proof.
  intros Hbin Hlen. unfold range_step.
  destruct (pack_loop_spec ((length padded_text + 8 - 1) / 8) 0 padded_text [])
    as (bytes & -> & Hun); [done|lia|].
  by exists bytes.
Qed.

Lemma padding_of_spec (encoded_text : pystr) :
  padding_of encoded_text < 8 ∧
  (padding_of encoded_text = 0 ↔ length encoded_text `mod` 8 = 0) ∧
  (length encoded_text `mod` 8 ≠ 0 →
     padding_of encoded_text = 8 - length encoded_text `mod` 8) ∧
  length (encoded_text ++ replicate (padding_of encoded_text) zero) `mod` 8 = 0.
Proof.
  unfold padding_of. rewrite length_app, length_replicate.
  case_decide; lia.
Qed.

Lemma strip_padding_padded (encoded_text : pystr) :
  strip_padding (encoded_text ++ replicate (padding_of encoded_text) zero)
    (padding_of encoded_text) = encoded_text.
Proof.
  unfold strip_padding. destruct (padding_of encoded_text) as [|p] eqn:Hp.
  - simpl. by rewrite app_nil_r.
  - rewrite length_app, length_replicate.
    replace (length encoded_text + S p - S p) with (length encoded_text) by lia.
    by rewrite take_app_length.
Qed.

Section Pipeline.
Context {symbol : Type} `{!EqDecision symbol}.
Local Abbreviation HuffmanNode := (HuffmanNode symbol).
Local Abbreviation value := (value symbol).
Local Abbreviation skeleton := (skeleton symbol).
Local Abbreviation HuffmanCompressor := (HuffmanCompressor symbol).

(** ** serialize_tree and deserialize_tree *)

Lemma deserialize_serialize (t : HuffmanNode) :
  proper t → ∀ fuel rest,
  length (serialize_from t ++ rest) ≤ fuel →
  deserialize_fuel fuel (serialize_from t ++ rest) = Ok (Some (strip t), rest).
Proof.
  induction 1 as [v f|f l r _ IHl _ IHr]; intros fuel rest Hfuel.
  - by destruct fuel.
  - cbn [serialize_from] in *. rewrite <-!app_assoc in *.
    cbn [app length] in Hfuel. destruct fuel as [|fuel]; [lia|].
    cbn [app deserialize_fuel truthy drop]. rewrite drop_0.
    rewrite IHl by lia. rsimpl. rewrite IHr; [done|].
    rewrite length_app in Hfuel. lia.
Qed.

Lemma deserialize_fuel_total fuel : ∀ serialized : list value,
  length serialized ≤ fuel →
  deserialize_fuel fuel serialized = Raise IndexError ∨
  ∃ node rest, deserialize_fuel fuel serialized = Ok (node, rest) ∧
               length rest ≤ length serialized.
Proof.
  induction fuel as [|fuel IH]; intros [|x s] Hlen; simpl in Hlen; try lia.
  - right. by exists None, [].
  - right. by exists None, [].
  - cbn [deserialize_fuel]. destruct (truthy x).
    + destruct s as [|c s]; [by left|]. right. eexists _, _. split; [done|].
      simpl. rewrite drop_0. lia.
    + cbn [drop]. rewrite drop_0. destruct (IH s) as [->|(l & rem & -> & Hrem)]; [lia|by left|].
      rsimpl. destruct (IH rem) as [->|(r & rem' & -> & Hrem')]; [lia|by left|].
      right. eexists _, _. split; [done|]. simpl. lia.
Qed.

Lemma leaf_at_strip (t : HuffmanNode) p v : leaf_at t p v → leaf_at (strip t) p v.
Proof. induction 1; simpl; by constructor. Qed.



(** ** The decoding loop *)

Lemma leaf_at_nil (t : HuffmanNode) v : leaf_at t [] v → char t = Some v.
Proof. by inversion 1. Qed.

Lemma leaf_at_is_leaf (t : HuffmanNode) p v :
  leaf_at t p v → is_leaf t = true → p = [] ∧ char t = Some v.
Proof. by destruct 1. Qed.

Lemma decode_loop_leaf root (t : HuffmanNode) p v :
  leaf_at t p v → ∀ c rest acc, v = VStr c → p ≠ [] →
  decode_loop root (p ++ rest) (Some t) acc
  = decode_loop root rest root (acc ++ [c]).
Proof.
  induction 1 as [v f l r|f l r p v Hl IH|f l r p v Hr IH];
    intros c rest acc -> Hne; [done|..];
    cbn [app decode_loop left right]; rewrite ?decide_True by done;
    rewrite ?decide_False by done.
  - destruct (is_leaf l) eqn:Hleaf.
    + destruct (leaf_at_is_leaf _ _ _ Hl Hleaf) as [-> ->]. done.
    + destruct p as [|b p]; [apply leaf_at_nil in Hl; unfold is_leaf in Hleaf;
                             by rewrite Hl in Hleaf|].
      by apply IH.
  - destruct (is_leaf r) eqn:Hleaf.
    + destruct (leaf_at_is_leaf _ _ _ Hr Hleaf) as [-> ->]. done.
    + destruct p as [|b p]; [apply leaf_at_nil in Hr; unfold is_leaf in Hleaf;
                             by rewrite Hr in Hleaf|].
      by apply IH.
Qed.

Lemma decode_loop_concat (t : HuffmanNode) text : ∀ ps acc,
  Forall2 (λ c p, leaf_at t p (VStr c) ∧ p ≠ []) text ps →
  decode_loop (Some t) (concat ps) (Some t) acc = Ok (Some t, acc ++ text).
Proof.
  induction text as [|c text IH]; intros ps acc Hps.
  - apply Forall2_nil_inv_l in Hps as ->. simpl. by rewrite app_nil_r.
  - apply Forall2_cons_inv_l in Hps as (p & ps' & [Hp Hne] & Hps & ->).
    simpl. rewrite (decode_loop_leaf (Some t) t p (VStr c) Hp c _ _ eq_refl Hne).
    rewrite IH by done. by rewrite <-app_assoc.
Qed.

(** ** The encoding loop *)

Lemma encode_loop_spec (codes : dict value pystr) text : ∀ encoded_text,
  (∀ c, c ∈ text → is_Some (dict_get (VStr c) codes)) →
  ∃ ps, Forall2 (λ c p, dict_get (VStr c) codes = Some p) text ps ∧
        encode_loop codes text encoded_text = Ok (encoded_text ++ concat ps).
Proof.
  induction text as [|c text IH]; intros acc Hin.
  - exists []. split; [done|]. simpl. by rewrite app_nil_r.
  - destruct (Hin c) as [p Hp]; [left|].
    destruct (IH (acc ++ p)) as (ps & Hps & Hrun).
    { intros c' ?. apply Hin. by right. }
    exists (p :: ps). split; [by constructor|].
    cbn [encode_loop]. unfold dict_getitem. rewrite Hp. rsimpl.
    rewrite Hrun. simpl. by rewrite <-app_assoc.
Qed.

(** ** Codes are binary *)

Lemma binary_leaf_code code : binary code → binary (leaf_code code).
Proof. destruct code; [|done]. intros _. apply Forall_singleton. by left. Qed.

Lemma leaf_at_binary (t : HuffmanNode) p v : leaf_at t p v → binary p.
Proof.
  induction 1; [apply Forall_nil_2|..]; apply Forall_cons; (split; [|done]);
    [by left|by right].
Qed.


(** ** The tree that build_huffman_tree returns *)

Lemma atoms_leaf_at (s : skeleton) n v :
  n ∈ atoms s → char n = Some v → ∃ p, leaf_at (fill s) p v.
Proof.
  induction s as [a|l IHl r IHr]; simpl.
  - intros ->%list_elem_of_singleton Hc. exists []. destruct a; simpl in *.
    subst. constructor.
  - intros [Hin|Hin]%elem_of_app Hc.
    + destruct (IHl Hin Hc) as [p Hp]. exists (zero :: p). by constructor.
    + destruct (IHr Hin Hc) as [p Hp]. exists (one :: p). by constructor.
Qed.

Lemma code_list_fill (s : skeleton) :
  Forall (λ n, is_leaf n = true) (atoms s) →
  ∀ d code v c, (v, c) ∈ code_list (fill s) code →
  ∃ n d' c0, (n, (d', c0)) ∈ atom_codes d code s ∧ char n = Some v ∧
             c = leaf_code c0.
Proof.
  induction s as [a|l IHl r IHr]; simpl; intros Hat d code v c Hin.
  - apply Forall_cons in Hat as [Hat _]. destruct a as [[ch|] f al ar]; [|done].
    simpl in Hin. apply list_elem_of_singleton in Hin as [= -> ->].
    eexists _, d, code. split; [left|done].
  - apply Forall_app in Hat as [Hl Hr]. apply elem_of_app in Hin as [Hin|Hin].
    + destruct (IHl Hl (S d) _ _ _ Hin) as (n & d' & c0 & ? & ? & ?).
      exists n, d', c0. split; [|done]. apply elem_of_app. auto.
    + destruct (IHr Hr (S d) _ _ _ Hin) as (n & d' & c0 & ? & ? & ?).
      exists n, d', c0. split; [|done]. apply elem_of_app. auto.
Qed.

Lemma atom_codes_levels (s : skeleton) : ∀ d code n d' c,
  (n, (d', c)) ∈ atom_codes d code s →
  n ∈ atoms s ∧ (d', freq n) ∈ levels d s ∧ d ≤ d' ∧
  length c = length code + (d' - d).
Proof.
  induction s as [a|l IHl r IHr]; intros d code n d' c Hin.
  - apply list_elem_of_singleton in Hin as [= -> -> ->].
    split_and!; [left|left|lia|lia].
  - cbn [atom_codes atoms levels] in *. apply elem_of_app in Hin as [Hin|Hin].
    + destruct (IHl _ _ _ _ _ Hin) as (? & ? & ? & Hlen).
      rewrite length_app in Hlen. simpl in Hlen.
      split_and!; [apply elem_of_app; auto| |lia|lia].
      right. apply elem_of_app. auto.
    + destruct (IHr _ _ _ _ _ Hin) as (? & ? & ? & Hlen).
      rewrite length_app in Hlen. simpl in Hlen.
      split_and!; [apply elem_of_app; auto| |lia|lia].
      right. apply elem_of_app. auto.
Qed.

Lemma proper_fill (s : skeleton) : Forall proper (atoms s) → proper (fill s).
Proof.
  induction s as [a|l IHl r IHr]; simpl.
  - by intros [? _]%Forall_cons.
  - intros [??]%Forall_app. constructor; auto.
Qed.

Lemma elem_of_leaves_of (m : dict symbol nat) (n : HuffmanNode) :
  n ∈ leaves_of m ↔ ∃ c f, (c, f) ∈ m ∧ n = new_node (Some (VStr c)) f.
Proof.
  unfold leaves_of. rewrite list_elem_of_fmap. split.
  - intros ([c f] & -> & ?). eauto.
  - intros (c & f & ? & ->). by exists (c, f).
Qed.

Lemma build_huffman_tree_spec (self : HuffmanCompressor) :
  frequency_map self ≠ [] →
  ∃ s : skeleton,
    build_huffman_tree self
    = (set_huffman_tree self (Some (fill s)), Ok (Some (fill s))) ∧
    atoms s ≡ₚ leaves_of (frequency_map self) ∧
    monotone (levels 0 s).
Proof.
  intros Hne. unfold build_huffman_tree.
  fold (leaves_of (frequency_map self)).
  destruct (frequency_map self) as [|kv m] eqn:Hm; [done|]. rewrite <-Hm.
  assert (leaves_of (frequency_map self) ≠ []) as Hne'.
  { rewrite Hm. by destruct kv. }
  unfold __lt__.
  destruct (heapify_spec freq (leaves_of (frequency_map self)))
    as (h & -> & Hperm & Hheap).
  rsimpl.
  destruct (build_loop_spec (length h) h) as (s & Hrun & Hat & Hmono);
    [done| |done|].
  { intros ->. by apply Permutation_nil_l in Hperm. }
  fold (@__lt__ symbol). rewrite Hrun. exists s. split_and!; [done| |done].
  by rewrite Hat.
Qed.

End Pipeline.

(** ** compress *)

Section Compress.
Context {symbol : Type} `{!EqDecision symbol}.
Local Abbreviation HuffmanNode := (HuffmanNode symbol).
Local Abbreviation value := (value symbol).
Local Abbreviation skeleton := (skeleton symbol).
Local Abbreviation HuffmanCompressor := (HuffmanCompressor symbol).

Lemma leaves_of_is_leaf (m : dict symbol nat) :
  Forall (λ n, is_leaf n = true) (leaves_of m).
Proof. apply Forall_forall. by intros n (c & f & _ & ->)%elem_of_leaves_of. Qed.

Lemma leaves_of_proper (m : dict symbol nat) : Forall proper (leaves_of m).
Proof.
  apply Forall_forall. intros n (c & f & _ & ->)%elem_of_leaves_of. constructor.
Qed.

Lemma length_leaf_code code : length (leaf_code code) = length code `max` 1.
Proof. destruct code; simpl; lia. Qed.

(** The code table that [generate_codes] leaves in [self.codes]. *)
Lemma generate_codes_spec (self : HuffmanCompressor) (t : HuffmanNode) :
  huffman_tree self = Some t →
  generate_codes self None []
  = (set_codes self (dict_update [] (code_list t [])),
     Ok (if is_leaf t then None
         else Some (dict_update [] (code_list t [])))).
Proof.
  intros Ht. unfold generate_codes. rewrite Ht. simpl.
  by rewrite generate_codes_from_code_list.
Qed.

(** Every entry of the code table is the path to a leaf with that symbol. *)
Lemma codes_leaf_at (t : HuffmanNode) v c :
  dict_get v (dict_update [] (code_list t [])) = Some c →
  ∃ p, leaf_at t p v ∧ c = leaf_code p.
Proof.
  intros [Hin|?]%dict_update_get; [|done].
  by apply code_list_leaf_at in Hin.
Qed.

Lemma codes_binary (t : HuffmanNode) v c :
  dict_get v (dict_update [] (code_list t [])) = Some c → binary c.
Proof.
  intros (p & Hp & ->)%codes_leaf_at.
  eapply binary_leaf_code, leaf_at_binary. done.
Qed.

Lemma codes_is_Some (t : HuffmanNode) p v :
  leaf_at t p v → is_Some (dict_get v (dict_update [] (code_list t []))).
Proof.
  intros Hp. apply dict_get_is_Some, dict_update_keys. left.
  apply list_elem_of_fmap. eexists (v, _). split; [done|].
  by apply (leaf_at_code_list t p v Hp []).
Qed.

Lemma Forall2_binary_concat {A} (P : A → pystr → Prop) l ps :
  (∀ a p, P a p → binary p) → Forall2 P l ps → binary (concat ps).
Proof.
  intros HP. induction 1; simpl; [apply Forall_nil_2|].
  apply binary_app. eauto.
Qed.

(** What [compress] does on a text that is not empty. *)
Lemma compress_spec (self : HuffmanCompressor) (text : list symbol) :
  text ≠ [] →
  ∃ (s : skeleton) (ps : list pystr) (bytes : list N),
    let t := fill s in
    let table := dict_update [] (code_list t []) in
    let encoded_text := concat ps in
    atoms s ≡ₚ leaves_of (Counter text) ∧
    monotone (levels 0 s) ∧
    Forall2 (λ c p, dict_get (VStr c) table = Some p) text ps ∧
    encode_loop table text [] = Ok encoded_text ∧
    unpack bytes = encoded_text ++ replicate (padding_of encoded_text) zero ∧
    compress self text
    = (mkHuffmanCompressor (Counter text) (Some t) table,
       Ok (mkCompressed (serialize_from t, padding_of encoded_text) bytes)).
Proof.
  intros Hne. unfold compress, calculate_frequencies.
  set (self1 := set_frequency_map self (Counter text)).
  destruct (build_huffman_tree_spec self1) as (s & -> & Hat & Hmono).
  { destruct text as [|c text]; [done|]. intros Hm.
    assert (c ∈ keys (Counter (c :: text))) as Hc by (apply Counter_keys; left).
    change (frequency_map self1) with (Counter (c :: text)) in Hm.
    rewrite Hm in Hc. by apply elem_of_nil in Hc. }
  change (frequency_map self1) with (Counter text) in Hat.
  rewrite (generate_codes_spec _ (fill s)) by done.
  cbn [fst snd].
  set (table := dict_update [] (code_list (fill s) [])).
  destruct (encode_loop_spec table text []) as (ps & Hps & Henc).
  { intros c Hc. apply Counter_keys in Hc.
    apply dict_get_is_Some in Hc as [f Hf]. apply dict_get_Some in Hf.
    destruct (atoms_leaf_at s (new_node (Some (VStr c)) f) (VStr c))
      as [p Hp]; [|done|by eapply codes_is_Some].
    rewrite Hat. apply elem_of_leaves_of. eauto. }
  simpl in Henc.
  assert (binary (concat ps)) as Hbin.
  { eapply Forall2_binary_concat; [|done]. intros c p. apply codes_binary. }
  destruct (pack_unpack (concat ps ++ replicate (padding_of (concat ps)) zero))
    as (bytes & Hpack & Hun).
  { apply binary_app. split; [done|apply binary_replicate]. }
  { apply padding_of_spec. }
  exists s, ps, bytes. cbn zeta. split_and!; [done..|].
  destruct (is_leaf (fill s)); cbn [codes set_codes]; fold table;
    rewrite Henc; rsimpl; rewrite Hpack; rsimpl; done.
Qed.

Lemma compress_empty (self : HuffmanCompressor) :
  compress self [] = (set_frequency_map self [], Raise ValueError).
Proof. done. Qed.

End Compress.

(** ** More on Counter *)

Section CounterCounts.
Context {K : Type} `{!EqDecision K}.
Implicit Types (d : dict K nat) (text : list K).

Lemma Counter_foldl_get text : ∀ d c,
  dict_get c (foldl (λ c x, dict_set x (default 0 (dict_get x c) + 1) c) d text)
  = if decide (c ∈ text)
    then Some (default 0 (dict_get c d) + occurrences c text)
    else dict_get c d.
Proof.
  unfold occurrences.
  induction text as [|x text IH]; intros d c; simpl foldl.
  - rewrite decide_False; [done|]. apply not_elem_of_nil.
  - rewrite IH, dict_get_set, filter_cons.
    destruct (decide (c = x)) as [->|Hne].
    + rewrite (decide_True (P := x ∈ x :: text)) by left.
      rewrite (decide_True (P := x = x)) by done.
      cbn [default length]. unfold id. case_decide; f_equal; [lia|].
      assert (filter (λ y, y = x) text = []) as ->; [|simpl; lia].
      destruct (filter (λ y, y = x) text) as [|y l] eqn:Hf; [done|].
      assert (y ∈ filter (λ y, y = x) text) as Hy by (rewrite Hf; left).
      apply list_elem_of_filter in Hy as [-> ?]. done.
    + rewrite (decide_False (P := x = c)) by done.
      destruct (decide (c ∈ text)).
      * by rewrite decide_True by by right.
      * rewrite decide_False; [done|]. by intros [?|?]%elem_of_cons.
Qed.

Lemma dict_set_sum d k v :
  sum_list_with snd (dict_set k v d) + default 0 (dict_get k d)
  = sum_list_with snd d + v.
Proof.
  induction d as [|[k0 v0] d IH]; simpl; [lia|].
  case_decide; simpl; lia.
Qed.

Lemma Counter_foldl_sum text : ∀ d,
  sum_list_with snd
    (foldl (λ c x, dict_set x (default 0 (dict_get x c) + 1) c) d text)
  = sum_list_with snd d + length text.
Proof.
  induction text as [|x text IH]; intros d; simpl foldl; simpl length; [lia|].
  rewrite IH. pose proof (dict_set_sum d x (default 0 (dict_get x d) + 1)). lia.
Qed.

End CounterCounts.

Section DictUpdate.
Context {K V : Type} `{!EqDecision K}.
Implicit Types (d : dict K V).

Lemma dict_set_fresh d k v : k ∉ keys d → dict_set k v d = d ++ [(k, v)].
Proof.
  unfold keys. induction d as [|[k0 v0] d IH]; simpl; [done|].
  intros Hk. apply not_elem_of_cons in Hk as [??].
  rewrite decide_False by done. by rewrite IH.
Qed.

(** Assigning pairs with fresh, distinct keys appends them in order. *)
Lemma dict_update_NoDup (kvs : list (K * V)) : ∀ d,
  NoDup (keys (d ++ kvs)) → dict_update d kvs = d ++ kvs.
Proof.
  unfold keys, dict_update.
  induction kvs as [|[k v] kvs IH]; intros d Hnd; simpl.
  - by rewrite app_nil_r.
  - rewrite fmap_app in Hnd. simpl in Hnd.
    assert (k ∉ d.*1) as Hk.
    { apply NoDup_app in Hnd as (_ & Hd & _). intros Hin. apply (Hd k Hin). left. }
    rewrite dict_set_fresh by done. rewrite IH.
    + by rewrite <-app_assoc.
    + rewrite <-app_assoc. simpl. by rewrite fmap_app.
Qed.

End DictUpdate.

Section MoreTrees.
Context {symbol : Type} `{!EqDecision symbol}.
Local Abbreviation HuffmanNode := (HuffmanNode symbol).
Local Abbreviation value := (value symbol).
Local Abbreviation skeleton := (skeleton symbol).
Local Abbreviation HuffmanCompressor := (HuffmanCompressor symbol).

Lemma fill_freq (s : skeleton) : freq (fill s) = sum_list_with freq (atoms s).
Proof.
  induction s as [n|l IHl r IHr]; simpl; [lia|].
  rewrite sum_list_with_app. lia.
Qed.

Lemma leaves_fill (s : skeleton) : leaves (fill s) = atoms s ≫= leaves.
Proof.
  induction s as [n|l IHl r IHr]; simpl.
  - by rewrite app_nil_r.
  - by rewrite bind_app, IHl, IHr.
Qed.

Lemma leaves_leaves_of (m : dict symbol nat) :
  leaves_of m ≫= leaves = (λ '(c, f), (VStr c, f)) <$> m.
Proof.
  unfold leaves_of. induction m as [|[c f] m IH]; [done|].
  rewrite !fmap_cons, bind_cons, IH. done.
Qed.

Lemma sum_leaves_of (m : dict symbol nat) :
  sum_list_with freq (leaves_of m) = sum_list_with snd m.
Proof.
  unfold leaves_of. induction m as [|[c f] m IH]; [done|].
  rewrite fmap_cons. cbn [sum_list_with]. rewrite IH. done.
Qed.

Lemma code_list_keys (t : HuffmanNode) :
  ∀ code, (code_list t code).*1 = (leaves t).*1.
Proof.
  induction t as [c f l r IHl IHr] using HuffmanNode_nested_ind. intros code.
  destruct c; [done|]. simpl. rewrite !fmap_app.
  destruct l as [l|], r as [r|]; simpl;
    rewrite ?(IHl l eq_refl), ?(IHr r eq_refl); done.
Qed.

Lemma atom_codes_depth (s : skeleton) : ∀ d code n d' c,
  (n, (d', c)) ∈ atom_codes d code s → d' - d ≤ length (atoms s) - 1.
Proof.
  induction s as [a|l IHl r IHr]; intros d code n d' c Hin.
  - apply list_elem_of_singleton in Hin as [= -> -> ->]. lia.
  - cbn [atom_codes atoms] in *. rewrite length_app.
    assert (∀ s : skeleton, 0 < length (atoms s)) as Hpos.
    { intros s. induction s; simpl; [lia|]. rewrite length_app. lia. }
    pose proof (Hpos l). pose proof (Hpos r).
    apply elem_of_app in Hin as [Hin|Hin].
    + apply IHl in Hin. lia.
    + apply IHr in Hin. lia.
Qed.


Lemma length_serialize_from (t : HuffmanNode) :
  proper t → length (serialize_from t) + 1 = 3 * length (leaves t).
Proof.
  induction 1 as [v f|f l r _ IHl _ IHr]; [done|].
  cbn [serialize_from leaves]. rewrite !length_app. simpl. lia.
Qed.

Lemma deserialize_fuel_nil fuel :
  deserialize_fuel (symbol:=symbol) fuel [] = Ok (None, []).
Proof. by destruct fuel. Qed.


End MoreTrees.

(** ** deserialize_tree and the recursion limit *)

Section Frames.
Context {symbol : Type} `{!EqDecision symbol}.
Local Abbreviation HuffmanNode := (HuffmanNode symbol).
Local Abbreviation value := (value symbol).
Local Abbreviation HuffmanCompressor := (HuffmanCompressor symbol).








(** Where the limit is not reached, [deserialize_tree] does what it does on
    an interpreter without one. *)
Lemma deserialize_frames_fuel frames : ∀ fuel (serialized : list value),
  length serialized ≤ fuel →
  deserialize_frames frames serialized ≠ Raise RecursionError →
  deserialize_fuel fuel serialized = deserialize_frames frames serialized.
Proof.
  induction frames as [|frames IH]; intros fuel serialized Hlen Hne.
  { by destruct Hne. }
  destruct serialized as [|x s]; [by destruct fuel|].
  simpl in Hlen. destruct fuel as [|fuel]; [lia|].
  cbn [deserialize_frames deserialize_fuel] in *. destruct (truthy x).
  { destruct s as [|c s]; [done|]. by destruct frames. }
  destruct frames as [|frames']; [done|].
  cbn [call drop] in *. rewrite drop_0 in *. cbn [mbind result_bind] in *.
  destruct (deserialize_fuel_total fuel s) as [Hf|(l & rem & Hf & Hrem)];
    [lia|..].
  - destruct (deserialize_frames (S frames') s) as [[l rem]|e] eqn:E.
    + rewrite (IH fuel s) in Hf by (by rewrite ?E; try lia). by rewrite E in Hf.
    + rewrite Hf. rewrite (IH fuel s) in Hf; [by rewrite E in Hf|lia|].
      rewrite E. by intros [= ->].
  - destruct (deserialize_frames (S frames') s) as [[l' rem']|e] eqn:E.
    + rewrite Hf. rewrite (IH fuel s) in Hf by (by rewrite ?E; try lia).
      rewrite E in Hf. simplify_eq. cbn [mbind result_bind] in *.
      rewrite (IH fuel rem); [done|lia|].
      intros Hr. by rewrite Hr in Hne.
    + rewrite (IH fuel s) in Hf; [by rewrite E in Hf|lia|].
      rewrite E. by intros [= ->].
Qed.

Lemma decompress_frames_unlimited frames (self : HuffmanCompressor)
    (byte_data : list N) (serialized : list value) (padding : nat) :
  deserialize_frames frames serialized ≠ Raise RecursionError →
  decompress_frames frames self byte_data (serialized, padding)
  = decompress self byte_data (serialized, padding).
Proof.
  intros Hne. unfold decompress_frames, decompress, deserialize_tree_frames,
    deserialize_tree.
  by rewrite (deserialize_frames_fuel frames (length serialized)).
Qed.



End Frames.

(** ** More on bits and bytes *)

Lemma length_zfill8_bin v : (v < 256)%N → length (zfill 8 (drop 2 (bin v))) = 8.
Proof.
  intros Hv. assert (∃ n, n < 256 ∧ v = N.of_nat n) as (n & Hn & ->).
  { exists (N.to_nat v). lia. }
  clear Hv. do 256 (destruct n as [|n]; [reflexivity|]). lia.
Qed.

Lemma length_unpack (byte_data : list N) :
  Forall (λ b, (b < 256)%N) byte_data →
  length (unpack byte_data) = 8 * length byte_data.
Proof.
  induction byte_data as [|b l IH] using rev_ind; [done|].
  intros [Hl Hb]%Forall_app. apply Forall_cons in Hb as [Hb _].
  rewrite unpack_snoc, !length_app, length_zfill8_bin, IH by done. simpl. lia.
Qed.

Lemma pack_loop_bytes (padded_text : pystr) idxs : ∀ bytes_array bytes,
  pack_loop padded_text idxs bytes_array = Ok bytes →
  Forall (λ b, (b < 256)%N) bytes_array →
  length bytes = length bytes_array + length idxs ∧
  Forall (λ b, (b < 256)%N) bytes.
Proof.
  induction idxs as [|i idxs IH]; intros acc bytes Hrun Hacc; cbn [pack_loop] in Hrun.
  - simplify_eq. split; [simpl; lia|done].
  - destruct (int2 _) as [v|]; [|done]. cbn [mbind result_bind] in Hrun.
    unfold bytearray_append in Hrun. case_decide; [|done]. cbn [mbind result_bind] in Hrun.
    apply IH in Hrun as [-> ?].
    + split; [|done]. rewrite length_app. simpl. lia.
    + apply Forall_app. split; [done|]. by apply Forall_singleton.
Qed.

(** * Properties of the specification *)

Section Claims.
Context {symbol : Type} `{!EqDecision symbol}.
Local Abbreviation HuffmanNode := (HuffmanNode symbol).
Local Abbreviation value := (value symbol).
Local Abbreviation skeleton := (skeleton symbol).
Local Abbreviation HuffmanCompressor := (HuffmanCompressor symbol).

(** C1 (amended). For every text with at least two distinct symbols,
    [compress] succeeds and [decompress], on any compressor, applied to the
    two artifacts returns exactly the text. *)
Theorem roundtrip_two_symbols (self self' : HuffmanCompressor)
    (text : list symbol) (a b : symbol) :
  a ∈ text → b ∈ text → a ≠ b →
  ∃ self1 out self2,
    compress self text = (self1, Ok out) ∧
    decompress self' (huff out) (hufftree out) = (self2, Ok text).
Proof.
  intros Ha Hb Hab.
  destruct (compress_spec self text) as (s & ps & bytes & Hat & _ & Hps & _ & Hun & ->).
  { intros ->. by apply elem_of_nil in Ha. }
  eexists _, _, _. split; [done|].
  cbn [huff hufftree]. unfold decompress, deserialize_tree.
  assert (proper (fill s)) as Hproper.
  { apply proper_fill. rewrite Hat. apply leaves_of_proper. }
  rewrite <-(app_nil_r (serialize_from (fill s))) at 2.
  rewrite deserialize_serialize by (by rewrite ?app_nil_r).
  rewrite Hun, strip_padding_padded. cbn [huffman_tree set_huffman_tree].
  rewrite (decode_loop_concat _ text ps []); [done|].
  assert (char (fill s) = None) as Hroot.
  { destruct s as [n|l r]; [|done]. exfalso. apply Hab.
    assert (∀ c, c ∈ text → char n = Some (VStr c)) as Hn.
    { intros c Hc%Counter_keys. apply dict_get_is_Some in Hc as [f Hf].
      apply dict_get_Some in Hf.
      assert (new_node (Some (VStr c)) f ∈ atoms (SAtom n)) as Hin.
      { rewrite Hat. apply elem_of_leaves_of. eauto. }
      by apply list_elem_of_singleton in Hin as <-. }
    specialize (Hn a Ha) as Hna. specialize (Hn b Hb) as Hnb. congruence. }
  eapply Forall2_impl; [exact Hps|]. intros c p Hp. cbn beta in Hp.
  apply codes_leaf_at in Hp as (p' & Hp' & ->).
  destruct p' as [|bit p'].
  { apply leaf_at_nil in Hp'. congruence. }
  split; [|done]. by apply leaf_at_strip.
Qed.

(** C2 (amended). On the empty text [compress] raises [ValueError] (the
    guard of [build_huffman_tree]) and returns no artifact; [decompress] on
    an empty payload with padding 0 and an empty serialized tree returns the
    empty text. *)
Theorem compress_empty_raises (self : HuffmanCompressor) :
  (compress self []).2 = Raise ValueError ∧
  (decompress self [] ([], 0)).2 = Ok [].
Proof. done. Qed.


(** C5 (amended). When the bits run out while the walk is at an internal
    node other than the root, [decompress] raises nothing: it returns the
    text decoded so far and drops the partial walk. *)
Theorem decode_exhausted_mid_tree (self : HuffmanCompressor)
    (byte_data : list N) (serialized : list value) (padding : nat)
    (tree : option HuffmanNode) (rest : list value)
    (node : HuffmanNode) (decoded_text : list symbol) :
  (deserialize_tree self serialized).2 = Ok (tree, rest) →
  decode_loop tree (strip_padding (unpack byte_data) padding) tree []
  = Ok (Some node, decoded_text) →
  Some node ≠ tree → is_leaf node = false →
  (decompress self byte_data (serialized, padding)).2 = Ok decoded_text.
Proof.
  intros Hdes Hdec _ _. unfold decompress, deserialize_tree in *.
  cbn [snd] in Hdes. rewrite Hdes. cbn [snd huffman_tree set_huffman_tree].
  by rewrite Hdec.
Qed.


(** C7. In the code table generated for the tree built from a frequency map
    that is not empty, the code of a symbol is never a prefix of the code
    of another symbol. *)
Theorem codes_prefix_free (self : HuffmanCompressor) :
  frequency_map self ≠ [] →
  ∃ self1 t self2 r,
    build_huffman_tree self = (self1, Ok (Some t)) ∧
    generate_codes self1 None [] = (self2, Ok r) ∧
    ∀ a b ca cb, a ≠ b →
      dict_get a (codes self2) = Some ca →
      dict_get b (codes self2) = Some cb →
      ¬ ca `prefix_of` cb.
Proof.
  intros Hne. destruct (build_huffman_tree_spec self Hne) as (s & -> & _ & _).
  eexists _, _, _, _. split; [done|].
  split; [by apply generate_codes_spec|].
  cbn [codes set_codes]. intros a b ca cb Hab Ha Hb [q ->].
  apply codes_leaf_at in Ha as (pa & Hpa & ->).
  apply codes_leaf_at in Hb as (pb & Hpb & Heq).
  destruct pa as [|x pa].
  { apply leaf_at_nil in Hpa.
    destruct (leaf_at_is_leaf _ _ _ Hpb) as [_ ?]; [|congruence].
    unfold is_leaf. by rewrite Hpa. }
  destruct pb as [|y pb].
  { apply leaf_at_nil in Hpb.
    destruct (leaf_at_is_leaf _ _ _ Hpa) as [? _]; [|done].
    unfold is_leaf. by rewrite Hpb. }
  cbn [leaf_code] in Heq. rewrite <-Heq in Hpb.
  destruct (leaf_at_prefix _ _ _ Hpa _ _ Hpb). done.
Qed.

(** C8. For a frequency map (a dict: no key twice) that is not empty, a
    symbol with a strictly higher frequency never gets a strictly longer
    code than a symbol with a lower one. *)
Theorem monotonic_code_length (self : HuffmanCompressor) :
  frequency_map self ≠ [] → NoDup (keys (frequency_map self)) →
  ∃ self1 t self2 r,
    build_huffman_tree self = (self1, Ok (Some t)) ∧
    generate_codes self1 None [] = (self2, Ok r) ∧
    ∀ a b fa fb ca cb,
      dict_get a (frequency_map self) = Some fa →
      dict_get b (frequency_map self) = Some fb →
      dict_get (VStr a) (codes self2) = Some ca →
      dict_get (VStr b) (codes self2) = Some cb →
      fb < fa → length ca ≤ length cb.
Proof.
  intros Hne Hnd.
  destruct (build_huffman_tree_spec self Hne) as (s & -> & Hat & Hmono).
  eexists _, _, _, _. split; [done|].
  split; [by apply generate_codes_spec|].
  cbn [codes set_codes].
  assert (∀ a fa ca,
    dict_get a (frequency_map self) = Some fa →
    dict_get (VStr a) (dict_update [] (code_list (fill s) [])) = Some ca →
    ∃ d, (d, fa) ∈ levels 0 s ∧ length ca = d `max` 1) as Hdepth.
  { intros a fa ca Hfa [Hin|?]%dict_update_get; [|done].
    apply (code_list_fill s) with (d := 0) in Hin
      as (n & d & c0 & Hn & Hchar & ->).
    2:{ rewrite Hat. apply leaves_of_is_leaf. }
    apply atom_codes_levels in Hn as (Hin & Hlev & _ & Hlen).
    rewrite Hat in Hin. apply elem_of_leaves_of in Hin as (a' & f' & Hf' & ->).
    simpl in Hchar, Hlev. simplify_eq.
    apply (dict_get_NoDup _ _ _ Hnd) in Hf'. simplify_eq.
    exists d. split; [done|]. rewrite length_leaf_code. simpl in Hlen. lia. }
  intros a b fa fb ca cb Hfa Hfb Hca Hcb Hlt.
  destruct (Hdepth a fa ca Hfa Hca) as (da & Hda & ->).
  destruct (Hdepth b fb cb Hfb Hcb) as (db & Hdb & ->).
  assert (da ≤ db) by by eapply (Hmono db fb da fa).
  lia.
Qed.

(** C9. On every text that is not empty [compress] returns, and the padding
    it records is in [0, 7]; it is 0 exactly when the length of the encoded
    bit string is a multiple of 8, else it is 8 minus that length modulo 8;
    and the bytes written hold the encoded bits followed by that many '0'
    bits. (On the empty text [compress] raises and records no padding.) *)
Theorem padding_bound (self : HuffmanCompressor) (text : list symbol) :
  text ≠ [] →
  ∃ self' out encoded_text,
    compress self text = (self', Ok out) ∧
    encode_loop (codes self') text [] = Ok encoded_text ∧
    0 ≤ (hufftree out).2 ≤ 7 ∧
    ((hufftree out).2 = 0 ↔ length encoded_text `mod` 8 = 0) ∧
    (length encoded_text `mod` 8 ≠ 0 →
       (hufftree out).2 = 8 - length encoded_text `mod` 8) ∧
    unpack (huff out) = encoded_text ++ replicate (hufftree out).2 zero.
Proof.
  intros Hne.
  destruct (compress_spec self text Hne)
    as (s & ps & bytes & _ & _ & _ & Henc & Hun & ->).
  eexists _, _, (concat ps). split; [done|].
  cbn [codes hufftree huff snd]. split; [done|].
  destruct (padding_of_spec (concat ps)) as (? & ? & ? & _).
  split_and!; [lia|lia|done..].
Qed.

(** X19. The table a top-level [generate_codes] leaves in [self.codes] depends on
    the current tree only: one entry per symbol of a leaf, whatever the
    table held before. What the call returns is that table, except that for
    a tree that is a single leaf it is [None]. *)
Lemma generate_codes_resets (self : HuffmanCompressor) (t : HuffmanNode) :
  huffman_tree self = Some t →
  ∃ table,
    generate_codes self None []
    = (set_codes self table, Ok (if is_leaf t then None else Some table)) ∧
    table = dict_update [] (code_list t []) ∧
    NoDup (keys table) ∧
    ∀ v, v ∈ keys table ↔ ∃ p, leaf_at t p v.
Proof.
  intros Ht. exists (dict_update [] (code_list t [])).
  split_and!; [by apply generate_codes_spec|done| |].
  - unfold dict_update. generalize (code_list t []).
    assert (NoDup (keys ([] : dict value pystr))) as Hnil by apply NoDup_nil_2.
    revert Hnil. generalize ([] : dict value pystr).
    intros d Hd l. revert d Hd.
    induction l as [|[k c] l IH]; intros d Hd; [done|].
    simpl. by apply IH, NoDup_keys_dict_set.
  - intros v. rewrite dict_update_keys. split.
    + intros [([v' c] & -> & Hin)%list_elem_of_fmap|Hin].
      * apply code_list_leaf_at in Hin as (p & ? & _). eauto.
      * by apply elem_of_nil in Hin.
    + intros [p Hp]. left. apply list_elem_of_fmap. eexists (v, _).
      split; [done|]. apply (leaf_at_code_list t p v Hp []).
Qed.

End Claims.

(** * Further properties of the code *)

Section Extras.
Context {symbol : Type} `{!EqDecision symbol}.
Local Abbreviation HuffmanNode := (HuffmanNode symbol).
Local Abbreviation value := (value symbol).
Local Abbreviation skeleton := (skeleton symbol).
Local Abbreviation HuffmanCompressor := (HuffmanCompressor symbol).

(** X1. [calculate_frequencies] stores and returns a map that gives every
    symbol of the text the number of its occurrences, has no entry for any
    other symbol, and has no key twice. *)
Theorem calculate_frequencies_counts (self : HuffmanCompressor)
    (text : list symbol) (c : symbol) :
  (calculate_frequencies self text).2
  = Ok (frequency_map (calculate_frequencies self text).1) ∧
  dict_get c (frequency_map (calculate_frequencies self text).1)
  = (if decide (c ∈ text) then Some (occurrences c text) else None) ∧
  NoDup (keys (frequency_map (calculate_frequencies self text).1)).
Proof.
  split_and!; [done| |apply Counter_NoDup].
  cbn [calculate_frequencies fst frequency_map set_frequency_map].
  unfold Counter. by rewrite Counter_foldl_get.
Qed.

(** X2. The counts of the frequency map add up to the length of the text. *)
Theorem calculate_frequencies_total (self : HuffmanCompressor)
    (text : list symbol) :
  sum_list_with snd (frequency_map (calculate_frequencies self text).1)
  = length text.
Proof.
  cbn [calculate_frequencies fst frequency_map set_frequency_map].
  unfold Counter. by rewrite Counter_foldl_sum.
Qed.

(** X3. For a frequency map that is not empty [build_huffman_tree] returns
    a tree, stores it in [self.huffman_tree] and changes nothing else; the
    weight of its root is the sum of all counts. *)
Theorem root_weight_is_total (self : HuffmanCompressor) :
  frequency_map self ≠ [] →
  ∃ t, build_huffman_tree self
       = (set_huffman_tree self (Some t), Ok (Some t)) ∧
       freq t = sum_list_with snd (frequency_map self).
Proof.
  intros Hne. destruct (build_huffman_tree_spec self Hne) as (s & -> & Hat & _).
  exists (fill s). split; [done|].
  by rewrite fill_freq, Hat, sum_leaves_of.
Qed.

(** X4. The tree built is a strict binary tree (a leaf has no child, any
    other node has two and no symbol), and its leaves are the entries of the
    frequency map, each one once, with its count as weight. *)
Theorem built_tree_leaves (self : HuffmanCompressor) :
  frequency_map self ≠ [] →
  ∃ t, (build_huffman_tree self).2 = Ok (Some t) ∧
       proper t ∧
       leaves t ≡ₚ (λ '(c, f), (VStr c, f)) <$> frequency_map self.
Proof.
  intros Hne. destruct (build_huffman_tree_spec self Hne) as (s & -> & Hat & _).
  exists (fill s). split_and!; [done| |].
  - apply proper_fill. rewrite Hat. apply leaves_of_proper.
  - by rewrite leaves_fill, Hat, leaves_leaves_of.
Qed.

(** X5. For a frequency map with no key twice, the code table generated
    from the built tree has exactly the symbols of the map as keys: one
    entry per symbol. *)
Theorem one_code_per_symbol (self : HuffmanCompressor) :
  frequency_map self ≠ [] → NoDup (keys (frequency_map self)) →
  ∃ self1 t self2 r,
    build_huffman_tree self = (self1, Ok (Some t)) ∧
    generate_codes self1 None [] = (self2, Ok r) ∧
    keys (codes self2) ≡ₚ VStr <$> keys (frequency_map self) ∧
    length (codes self2) = length (frequency_map self).
Proof.
  intros Hne Hnd.
  destruct (build_huffman_tree_spec self Hne) as (s & -> & Hat & _).
  eexists _, _, _, _. split; [done|].
  split; [by apply generate_codes_spec|]. cbn [codes set_codes].
  assert ((code_list (fill s) []).*1 ≡ₚ VStr <$> keys (frequency_map self))
    as Hkeys.
  { rewrite code_list_keys, leaves_fill, Hat, leaves_leaves_of.
    unfold keys. rewrite <-!list_fmap_compose.
    erewrite list_fmap_ext; [done|]. by intros _ [c f] _. }
  rewrite dict_update_NoDup.
  2:{ unfold keys. simpl. rewrite Hkeys. apply NoDup_fmap_2; [|done].
      by intros ?? [=]. }
  split; [done|].
  rewrite <-(length_fmap fst), Hkeys. unfold keys. by rewrite !length_fmap.
Qed.

(** X6. Whatever the current tree is, every entry that a top-level
    [generate_codes] leaves in [self.codes] is a string of '0' and '1' that
    is not empty and spells the path from the root to a leaf with that
    symbol ('0' for left, '1' for right; "0" for a root that is a leaf). *)
Theorem codes_are_paths (self : HuffmanCompressor) (t : HuffmanNode)
    (v : value) (c : pystr) :
  huffman_tree self = Some t →
  dict_get v (codes (generate_codes self None []).1) = Some c →
  c ≠ [] ∧ binary c ∧ ∃ p, leaf_at t p v ∧ c = leaf_code p.
Proof.
  intros Ht. rewrite (generate_codes_spec self t Ht).
  cbn [fst codes set_codes]. intros Hc.
  split_and!; [|by eapply codes_binary|by apply codes_leaf_at].
  apply codes_leaf_at in Hc as (p & _ & ->). by destruct p.
Qed.

(** X7. No code is longer than the number of symbols minus one (one for a
    single symbol). *)
Theorem code_length_bound (self : HuffmanCompressor) :
  frequency_map self ≠ [] →
  ∃ self1 t self2 r,
    build_huffman_tree self = (self1, Ok (Some t)) ∧
    generate_codes self1 None [] = (self2, Ok r) ∧
    ∀ v c, dict_get v (codes self2) = Some c →
      1 ≤ length c ≤ (length (frequency_map self) - 1) `max` 1.
Proof.
  intros Hne.
  destruct (build_huffman_tree_spec self Hne) as (s & -> & Hat & _).
  eexists _, _, _, _. split; [done|].
  split; [by apply generate_codes_spec|]. cbn [codes set_codes].
  intros v c [Hin|?]%dict_update_get; [|done].
  apply (code_list_fill s) with (d := 0) in Hin as (n & d & c0 & Hn & _ & ->).
  2:{ rewrite Hat. apply leaves_of_is_leaf. }
  pose proof (atom_codes_depth s _ _ _ _ _ Hn) as Hd.
  apply atom_codes_levels in Hn as (_ & _ & _ & Hlen).
  rewrite Hat in Hd. unfold leaves_of in Hd. rewrite length_fmap in Hd.
  rewrite length_leaf_code. simpl in Hlen. lia.
Qed.


(** X9. The serialization of a strict binary tree with n leaves has
    3n - 1 tokens. *)
Theorem serialized_length (self : HuffmanCompressor) (t : HuffmanNode)
    (serialized : list value) :
  proper t →
  (serialize_tree self (Some t)).2 = Ok serialized →
  length serialized + 1 = 3 * length (leaves t).
Proof. intros Hp [= <-]. by apply length_serialize_from. Qed.


End Extras.

(** X11. Packing a string of '0' and '1' whose length is a multiple of 8
    never raises; it gives one byte below 256 per eight characters, and
    unpacking those bytes gives the string back. *)
Theorem pack_unpack_bytes (padded_text : pystr) :
  binary padded_text → length padded_text `mod` 8 = 0 →
  ∃ bytes,
    pack_loop padded_text (range_step (length padded_text) 8) [] = Ok bytes ∧
    unpack bytes = padded_text ∧
    8 * length bytes = length padded_text ∧
    Forall (λ b, (b < 256)%N) bytes.
Proof.
  intros Hbin Hlen. destruct (pack_unpack padded_text Hbin Hlen) as (bytes & Hrun & Hun).
  exists bytes. split_and!; [done..| |].
  - apply pack_loop_bytes in Hrun as [-> _]; [|done].
    unfold range_step. rewrite length_fmap, length_seq. cbn [length]. lia.
  - by apply pack_loop_bytes in Hrun as [_ ?].
Qed.

Section Extras2.
Context {symbol : Type} `{!EqDecision symbol}.
Local Abbreviation HuffmanNode := (HuffmanNode symbol).
Local Abbreviation value := (value symbol).
Local Abbreviation skeleton := (skeleton symbol).
Local Abbreviation HuffmanCompressor := (HuffmanCompressor symbol).

(** X12. With any tree whose root is not a leaf, encoding a text with the
    generated codes and decoding the bits with the same tree gives the text
    back and ends at the root, provided every symbol of the text is at some
    leaf. *)
Theorem encode_decode_any_tree (self : HuffmanCompressor) (t : HuffmanNode)
    (text : list symbol) :
  huffman_tree self = Some t → is_leaf t = false →
  (∀ c, c ∈ text → ∃ p, leaf_at t p (VStr c)) →
  ∃ encoded_text,
    encode_loop (codes (generate_codes self None []).1) text []
    = Ok encoded_text ∧
    decode_loop (Some t) encoded_text (Some t) [] = Ok (Some t, text).
Proof.
  intros Ht Hroot Hin. rewrite (generate_codes_spec self t Ht).
  cbn [fst codes set_codes].
  destruct (encode_loop_spec (dict_update [] (code_list t [])) text [])
    as (ps & Hps & ->).
  { intros c [p Hp]%Hin. by eapply codes_is_Some. }
  exists (concat ps). split; [done|].
  rewrite (decode_loop_concat t text ps []); [done|].
  eapply Forall2_impl; [exact Hps|]. intros c p Hp. cbn beta in Hp.
  apply codes_leaf_at in Hp as (p' & Hp' & ->).
  destruct p' as [|bit p']; [|done].
  apply leaf_at_nil in Hp'. unfold is_leaf in Hroot. by rewrite Hp' in Hroot.
Qed.

Lemma Counter_replicate (c : symbol) n : ∀ k,
  foldl (λ d x, dict_set x (default 0 (dict_get x d) + 1) d) [(c, k)]
    (replicate n c) = [(c, k + n)].
Proof.
  induction n as [|n IH]; intros k; simpl.
  - by rewrite Nat.add_0_r.
  - rewrite !decide_True by done. simpl. rewrite IH. do 2 f_equal. lia.
Qed.

(** X13. For every text that repeats one symbol, [compress] succeeds with
    the code table {c: "0"} and the serialized tree [True, c], and
    [decompress] on what was written raises [AttributeError]. *)
Theorem single_symbol_text_fails (self self' : HuffmanCompressor)
    (c : symbol) (n : nat) :
  ∃ self1 out,
    compress self (replicate (S n) c) = (self1, Ok out) ∧
    codes self1 = [(VStr c, [zero])] ∧
    (hufftree out).1 = [VBool true; VStr c] ∧
    (decompress self' (huff out) (hufftree out)).2 = Raise AttributeError.
Proof.
  destruct (compress_spec self (replicate (S n) c))
    as (s & ps & bytes & Hat & _ & Hps & _ & Hun & ->); [done|].
  assert (Counter (replicate (S n) c) = [(c, S n)]) as Hcount.
  { unfold Counter. simpl. by rewrite (Counter_replicate c n 1). }
  rewrite Hcount in Hat. cbn [leaves_of fmap list_fmap] in Hat.
  assert (s = SAtom (new_node (Some (VStr c)) (S n))) as ->.
  { destruct s as [a|l r].
    - simpl in Hat. by apply Permutation_singleton_r in Hat as [= ->].
    - apply Permutation_length in Hat. simpl in Hat. rewrite length_app in Hat.
      assert (∀ s : skeleton, 0 < length (atoms s)) as Hpos.
      { intros s. induction s; simpl; [lia|]. rewrite length_app. lia. }
      pose proof (Hpos l). pose proof (Hpos r). lia. }
  eexists _, _. split; [done|]. cbn [codes hufftree huff fst fill].
  split; [done|]. split; [done|].
  unfold decompress, deserialize_tree. simpl deserialize_fuel.
  cbn [snd huffman_tree set_huffman_tree]. rewrite Hun, strip_padding_padded.
  change (dict_update [] (code_list (fill (SAtom (new_node (Some (VStr c)) (S n)))) []))
    with [(VStr c, [zero])] in Hps.
  simpl in Hps. apply Forall2_cons_inv_l in Hps as (p & ps' & Hp & _ & ->).
  rewrite decide_True in Hp by done. simplify_eq. done.
Qed.

(** X14. The padding is not checked against the payload: when it is
    positive and covers all the bits of the payload, [decompress] returns
    the empty text. *)
Theorem oversized_padding_empty (self : HuffmanCompressor)
    (byte_data : list N) (serialized : list value) (padding : nat)
    (tree : option HuffmanNode) (rest : list value) :
  Forall (λ b, (b < 256)%N) byte_data →
  0 < padding → 8 * length byte_data ≤ padding →
  (deserialize_tree self serialized).2 = Ok (tree, rest) →
  (decompress self byte_data (serialized, padding)).2 = Ok [].
Proof.
  intros Hb Hpos Hpad Hde. unfold decompress, deserialize_tree in *.
  cbn [snd] in Hde. rewrite Hde. cbn [snd huffman_tree set_huffman_tree].
  unfold strip_padding. destruct padding as [|p]; [lia|].
  rewrite length_unpack by done.
  replace (8 * length byte_data - S p) with 0 by lia. by rewrite take_0.
Qed.

(** X15. With an empty serialized tree, [decompress] raises
    [AttributeError] as soon as one bit is left after the padding is
    dropped. *)
Theorem empty_tree_raises (self : HuffmanCompressor) (byte_data : list N)
    (padding : nat) :
  strip_padding (unpack byte_data) padding ≠ [] →
  (decompress self byte_data ([], padding)).2 = Raise AttributeError.
Proof.
  intros Hne. unfold decompress, deserialize_tree. simpl deserialize_fuel.
  cbn [snd huffman_tree set_huffman_tree].
  by destruct (strip_padding (unpack byte_data) padding).
Qed.

Lemma compress_Ok_inv (self self' : HuffmanCompressor) (text : list symbol)
    (out : compressed symbol) :
  compress self text = (self', Ok out) →
  ∃ encoded_text,
    encode_loop (codes self') text [] = Ok encoded_text ∧
    (hufftree out).2 = padding_of encoded_text ∧
    pack_loop (encoded_text ++ replicate (padding_of encoded_text) zero)
      (range_step
         (length (encoded_text ++ replicate (padding_of encoded_text) zero)) 8)
      [] = Ok (huff out).
Proof.
  unfold compress, calculate_frequencies.
  destruct (build_huffman_tree _) as [s1 [r1|e1]]; [|by intros [=]].
  destruct (generate_codes s1 None []) as [s2 [r2|e2]]; [|by intros [=]].
  intros [= <- Hout].
  destruct (encode_loop (codes s2) text []) as [enc|];
    cbn [mbind result_bind] in Hout; [|done].
  destruct (pack_loop _ _ _) as [bytes|] eqn:Hpack;
    cbn [mbind result_bind] in Hout; [|done].
  destruct (huffman_tree s2) as [node|];
    cbn [snd mbind result_bind] in Hout; [|done].
  simplify_eq. exists enc. split_and!; [done..|]. exact Hpack.
Qed.

(** X16. On every text that is not empty, the payload written by
    [compress] has one byte (below 256) per eight bits of the encoded text
    and its padding. *)
Theorem payload_size (self : HuffmanCompressor) (text : list symbol) :
  text ≠ [] →
  ∃ self' out encoded_text,
    compress self text = (self', Ok out) ∧
    encode_loop (codes self') text [] = Ok encoded_text ∧
    8 * length (huff out) = length encoded_text + (hufftree out).2 ∧
    Forall (λ b, (b < 256)%N) (huff out).
Proof.
  intros Hne.
  destruct (compress_spec self text Hne)
    as (s & ps & bytes & _ & _ & _ & _ & _ & Heq).
  destruct (compress_Ok_inv _ _ _ _ Heq) as (enc & Henc & Hpad & Hpack).
  eexists _, _, enc. split; [exact Heq|]. split; [exact Henc|].
  apply pack_loop_bytes in Hpack as [Hlen Hb]; [|done].
  split; [|done]. rewrite Hlen, Hpad. unfold range_step.
  rewrite length_fmap, length_seq.
  pose proof (padding_of_spec enc) as (_ & _ & _ & Hmod).
  rewrite length_app, length_replicate in *. cbn [length]. lia.
Qed.

End Extras2.

Section Weighted.
Context {K : Type} `{!EqDecision K} (g : K → nat).

Lemma dict_set_weighted (d : dict K nat) k v :
  sum_list_with (λ kv, kv.2 * g kv.1) (dict_set k v d)
  + default 0 (dict_get k d) * g k
  = sum_list_with (λ kv, kv.2 * g kv.1) d + v * g k.
Proof.
  induction d as [|[k0 v0] d IH]; simpl; [lia|].
  case_decide; simplify_eq/=; lia.
Qed.

(** Summing [g] over a text is summing count times [g] over its Counter. *)
Lemma Counter_weighted (text : list K) :
  sum_list_with (λ kv, kv.2 * g kv.1) (Counter text) = sum_list_with g text.
Proof.
  unfold Counter.
  assert (∀ d : dict K nat,
    sum_list_with (λ kv, kv.2 * g kv.1)
      (foldl (λ c x, dict_set x (default 0 (dict_get x c) + 1) c) d text)
    = sum_list_with (λ kv, kv.2 * g kv.1) d + sum_list_with g text) as H.
  { induction text as [|x text IH]; intros d; simpl; [lia|].
    rewrite IH.
    pose proof (dict_set_weighted d x (default 0 (dict_get x d) + 1)). lia. }
  by rewrite H.
Qed.

End Weighted.

Section Extras3.
Context {symbol : Type} `{!EqDecision symbol}.
Local Abbreviation HuffmanNode := (HuffmanNode symbol).
Local Abbreviation value := (value symbol).
Local Abbreviation HuffmanCompressor := (HuffmanCompressor symbol).

(** X17. The number of bits that [compress] encodes is the sum, over the
    symbols of the frequency map, of count times code length. *)
Theorem encoded_length_weighted (self : HuffmanCompressor)
    (text : list symbol) :
  text ≠ [] →
  ∃ self' out encoded_text,
    compress self text = (self', Ok out) ∧
    encode_loop (codes self') text [] = Ok encoded_text ∧
    length encoded_text
    = sum_list_with
        (λ kv, kv.2 * length (default [] (dict_get (VStr kv.1) (codes self'))))
        (frequency_map self').
Proof.
  intros Hne.
  destruct (compress_spec self text Hne)
    as (s & ps & bytes & _ & _ & Hps & Henc & _ & ->).
  eexists _, _, _. split; [done|]. cbn [codes frequency_map].
  split; [exact Henc|].
  rewrite (Counter_weighted
    (λ c, length (default [] (dict_get (VStr c)
                    (dict_update [] (code_list (fill s) [])))))).
  clear Henc Hne. induction Hps as [|c p text ps Hp _ IH]; [done|].
  simpl. rewrite length_app, IH, Hp. done.
Qed.


End Extras3.

(** * Closed instances *)

(** C1, as stated, fails: [compress] raises on the empty text, and on "aaaa"
    [decompress] raises on what [compress] wrote. *)
Lemma roundtrip_counterexample :
  (compress fresh []).2 = Raise ValueError ∧
  ∃ self1 out,
    compress fresh text_aaaa = (self1, Ok out) ∧
    (decompress fresh (huff out) (hufftree out)).2 = Raise AttributeError.
Proof. split; [reflexivity|]. eexists _, _. split; reflexivity. Qed.

(** C1 (amended) on "abracadabra". *)
Lemma roundtrip_two_symbols_witness :
  ∃ self1 out self2,
    compress fresh text_abracadabra = (self1, Ok out) ∧
    decompress fresh (huff out) (hufftree out) = (self2, Ok text_abracadabra).
Proof.
  apply (roundtrip_two_symbols fresh fresh text_abracadabra "a" "b")%char.
  - left.
  - right; left.
  - discriminate.
Defined.

(** C2, as stated, fails: [compress] on the empty text returns no payload. *)
Lemma compress_empty_counterexample :
  (compress fresh []).2 = Raise ValueError ∧
  ∀ out, (compress fresh []).2 ≠ Ok out.
Proof. split; [reflexivity|]. intros out. discriminate. Qed.

(** C3: on "aaaa" the code table is {'a': "0"} and the four bits and four
    padding bits make one byte, but decoding that byte with the one-leaf
    tree raises [AttributeError] at the first bit. *)
Theorem single_symbol_decode_raises :
  compress fresh text_aaaa
  = (mkHuffmanCompressor [("a"%char, 4)]
       (Some (new_node (Some (VStr "a"%char)) 4))
       [(VStr "a"%char, [zero])],
     Ok (mkCompressed ([VBool true; VStr "a"%char], 4) [0%N])) ∧
  (decompress fresh [0%N] ([VBool true; VStr "a"%char], 4)).2
  = Raise AttributeError.
Proof. split; reflexivity. Qed.


(** C5, as stated, fails: with the tree ((a, b), c) and the single bit "0"
    the walk stops at the internal node (a, b), and [decompress] returns the
    empty text. *)
Lemma decode_mid_tree_counterexample :
  decode_loop (Some tree_abc) (strip_padding (unpack [0%N]) 7)
    (Some tree_abc) [] = Ok (Some node_ab, []) ∧
  is_leaf node_ab = false ∧ node_ab ≠ tree_abc ∧
  (decompress fresh [0%N] (tokens_abc, 7)).2 = Ok [].
Proof. split_and!; [reflexivity..|discriminate|reflexivity]. Qed.

(** C5 (amended) on the same input. *)
Lemma decode_exhausted_mid_tree_witness :
  (decompress fresh [0%N] (tokens_abc, 7)).2 = Ok [].
Proof.
  apply (decode_exhausted_mid_tree fresh [0%N] tokens_abc 7
           (Some tree_abc) [] node_ab []).
  - reflexivity.
  - reflexivity.
  - discriminate.
  - reflexivity.
Defined.


(** C7 on the frequency map of "abracadabra". *)
Lemma codes_prefix_free_witness :
  frequency_map counted ≠ [] ∧
  ∃ self1 t self2 r,
    build_huffman_tree counted = (self1, Ok (Some t)) ∧
    generate_codes self1 None [] = (self2, Ok r) ∧
    ∀ a b ca cb, a ≠ b →
      dict_get a (codes self2) = Some ca →
      dict_get b (codes self2) = Some cb →
      ¬ ca `prefix_of` cb.
Proof.
  assert (frequency_map counted ≠ []) as H by discriminate.
  split; [exact H|]. apply (codes_prefix_free counted H).
Defined.

(** C8 on the frequency map of "abracadabra". *)
Lemma monotonic_code_length_witness :
  frequency_map counted ≠ [] ∧ NoDup (keys (frequency_map counted)) ∧
  ∃ self1 t self2 r,
    build_huffman_tree counted = (self1, Ok (Some t)) ∧
    generate_codes self1 None [] = (self2, Ok r) ∧
    ∀ a b fa fb ca cb,
      dict_get a (frequency_map counted) = Some fa →
      dict_get b (frequency_map counted) = Some fb →
      dict_get (VStr a) (codes self2) = Some ca →
      dict_get (VStr b) (codes self2) = Some cb →
      fb < fa → length ca ≤ length cb.
Proof.
  assert (frequency_map counted ≠ []) as H by discriminate.
  assert (NoDup (keys (frequency_map counted))) as Hnd.
  { apply (bool_decide_unpack _). vm_compute. exact I. }
  split; [exact H|]. split; [exact Hnd|].
  apply (monotonic_code_length counted H Hnd).
Defined.

(** C9 on "abracadabra". *)
Lemma padding_bound_witness :
  text_abracadabra ≠ [] ∧
  ∃ self' out encoded_text,
    compress fresh text_abracadabra = (self', Ok out) ∧
    encode_loop (codes self') text_abracadabra [] = Ok encoded_text ∧
    0 ≤ (hufftree out).2 ≤ 7 ∧
    ((hufftree out).2 = 0 ↔ length encoded_text `mod` 8 = 0) ∧
    (length encoded_text `mod` 8 ≠ 0 →
       (hufftree out).2 = 8 - length encoded_text `mod` 8) ∧
    unpack (huff out) = encoded_text ++ replicate (hufftree out).2 zero.
Proof.
  assert (text_abracadabra ≠ []) as H by discriminate.
  split; [exact H|]. apply (padding_bound fresh text_abracadabra H).
Defined.

(** C10: with the one-leaf tree of "aaaa" a top-level [generate_codes]
    resets the stale table and writes {'a': "0"}, but returns [None] and not
    the table. *)
Theorem generate_codes_leaf_returns_None :
  generate_codes stale None []
  = (set_codes stale [(VStr "a"%char, [zero])], Ok None).
Proof. reflexivity. Qed.

(** The model passes the repository's unit tests: the frequencies of 'e',
    't' and ' ', the weight of the root, one code per symbol, and the
    compression cycle with a payload smaller than the 55 bytes of the
    text. *)
Example unit_tests :
  dict_get "e"%char (Counter text_test) = Some 8 ∧
  dict_get "t"%char (Counter text_test) = Some 4 ∧
  dict_get " "%char (Counter text_test) = Some 10 ∧
  ∃ self1 out self2,
    compress fresh text_test = (self1, Ok out) ∧
    freq <$> huffman_tree self1 = Some (length text_test) ∧
    length (codes self1) = length (frequency_map self1) ∧
    length (huff out) = 27 ∧
    decompress fresh (huff out) (hufftree out) = (self2, Ok text_test).
Proof.
  split_and!; [reflexivity..|]. vm_compute.
  eexists _, _, _. split_and!; reflexivity.
Qed.

(** ** Closed instances of the further properties *)

Lemma tree_abc_proper : proper tree_abc.
Proof. repeat constructor. Qed.


Lemma text_cab_leaves c : c ∈ text_cab → ∃ p, leaf_at tree_abc p (VStr c).
Proof.
  intros H. repeat (apply elem_of_cons in H as [->|H]).
  - exists [one]. apply leaf_right, leaf_here.
  - exists [zero; zero]. apply leaf_left, leaf_left, leaf_here.
  - exists [zero; one]. apply leaf_left, leaf_right, leaf_here.
  - by apply elem_of_nil in H.
Qed.


(** X3 on the frequency map of "abracadabra". *)
Lemma root_weight_is_total_witness :
  ∃ t, build_huffman_tree counted
       = (set_huffman_tree counted (Some t), Ok (Some t)) ∧
       freq t = sum_list_with snd (frequency_map counted).
Proof. apply (root_weight_is_total counted). discriminate. Defined.

(** X4 on the frequency map of "abracadabra". *)
Lemma built_tree_leaves_witness :
  ∃ t, (build_huffman_tree counted).2 = Ok (Some t) ∧
       proper t ∧
       leaves t ≡ₚ (λ '(c, f), (VStr c, f)) <$> frequency_map counted.
Proof. apply (built_tree_leaves counted). discriminate. Defined.

(** X5 on the frequency map of "abracadabra". *)
Lemma one_code_per_symbol_witness :
  ∃ self1 t self2 r,
    build_huffman_tree counted = (self1, Ok (Some t)) ∧
    generate_codes self1 None [] = (self2, Ok r) ∧
    keys (codes self2) ≡ₚ VStr <$> keys (frequency_map counted) ∧
    length (codes self2) = length (frequency_map counted).
Proof.
  apply (one_code_per_symbol counted); [discriminate|].
  apply (bool_decide_unpack _). vm_compute. exact I.
Defined.

(** X6 on the tree ((a, b), c) and the symbol 'b'. *)
Lemma codes_are_paths_witness :
  [zero; one] ≠ [] ∧ binary [zero; one] ∧
  ∃ p, leaf_at tree_abc p (VStr "b"%char) ∧ [zero; one] = leaf_code p.
Proof.
  apply (codes_are_paths holding_abc tree_abc (VStr "b"%char) [zero; one]);
    reflexivity.
Defined.

(** X7 on the frequency map of "abracadabra". *)
Lemma code_length_bound_witness :
  ∃ self1 t self2 r,
    build_huffman_tree counted = (self1, Ok (Some t)) ∧
    generate_codes self1 None [] = (self2, Ok r) ∧
    ∀ v c, dict_get v (codes self2) = Some c →
      1 ≤ length c ≤ (length (frequency_map counted) - 1) `max` 1.
Proof. apply (code_length_bound counted). discriminate. Defined.


(** X9 on the tree ((a, b), c). *)
Lemma serialized_length_witness :
  length tokens_abc + 1 = 3 * length (leaves tree_abc).
Proof.
  apply (serialized_length fresh tree_abc tokens_abc).
  - exact tree_abc_proper.
  - reflexivity.
Defined.


(** X11 on the sixteen bits "0110000101100010". *)
Lemma pack_unpack_bytes_witness :
  ∃ bytes,
    pack_loop (unpack [97%N; 98%N]) (range_step 16 8) [] = Ok bytes ∧
    unpack bytes = unpack [97%N; 98%N] ∧
    8 * length bytes = 16 ∧
    Forall (λ b, (b < 256)%N) bytes.
Proof.
  apply (pack_unpack_bytes (unpack [97%N; 98%N])).
  - apply (bool_decide_unpack _). vm_compute. exact I.
  - reflexivity.
Defined.

(** X12 on the tree ((a, b), c) and the text "cab". *)
Lemma encode_decode_any_tree_witness :
  ∃ encoded_text,
    encode_loop (codes (generate_codes holding_abc None []).1) text_cab []
    = Ok encoded_text ∧
    decode_loop (Some tree_abc) encoded_text (Some tree_abc) []
    = Ok (Some tree_abc, text_cab).
Proof.
  apply (encode_decode_any_tree holding_abc tree_abc text_cab).
  - reflexivity.
  - reflexivity.
  - exact text_cab_leaves.
Defined.

(** X14 on one byte and padding 8. *)
Lemma oversized_padding_empty_witness :
  (decompress fresh [255%N] (tokens_abc, 8)).2 = Ok [].
Proof.
  apply (oversized_padding_empty fresh [255%N] tokens_abc 8
           (Some tree_abc) []).
  - apply Forall_singleton. reflexivity.
  - lia.
  - simpl. lia.
  - reflexivity.
Defined.

(** X15 on one byte and no padding. *)
Lemma empty_tree_raises_witness :
  (decompress fresh [0%N] ([], 0)).2 = Raise AttributeError.
Proof. apply (empty_tree_raises fresh [0%N] 0). discriminate. Defined.

(** X16 on "abracadabra". *)
Lemma payload_size_witness :
  ∃ self' out encoded_text,
    compress fresh text_abracadabra = (self', Ok out) ∧
    encode_loop (codes self') text_abracadabra [] = Ok encoded_text ∧
    8 * length (huff out) = length encoded_text + (hufftree out).2 ∧
    Forall (λ b, (b < 256)%N) (huff out).
Proof. apply (payload_size fresh text_abracadabra). discriminate. Defined.

(** X17 on "abracadabra". *)
Lemma encoded_length_weighted_witness :
  ∃ self' out encoded_text,
    compress fresh text_abracadabra = (self', Ok out) ∧
    encode_loop (codes self') text_abracadabra [] = Ok encoded_text ∧
    length encoded_text
    = sum_list_with
        (λ kv, kv.2 * length (default [] (dict_get (VStr kv.1) (codes self'))))
        (frequency_map self').
Proof.
  apply (encoded_length_weighted fresh text_abracadabra). discriminate.
Defined.


(** X19 on the compressor with a stale code table. *)
Lemma generate_codes_resets_witness :
  ∃ table,
    generate_codes stale None []
    = (set_codes stale table,
       Ok (if is_leaf (new_node (Some (VStr "a"%char)) 4)
           then None else Some table)) ∧
    table = dict_update [] (code_list (new_node (Some (VStr "a"%char)) 4) []) ∧
    NoDup (keys table) ∧
    ∀ v, v ∈ keys table ↔ ∃ p, leaf_at (new_node (Some (VStr "a"%char)) 4) p v.
Proof.
  apply (generate_codes_resets stale (new_node (Some (VStr "a"%char)) 4)).
  reflexivity.
Defined.
